(** * filter_rewrite_rules: classification of candidate rewrite rules

    A shallow embedding of [apps/super_simplify/filter_rewrite_rules.cpp]
    (the function [main] and its local visitor [CountLeaves]) together with
    the parts of the expression library it calls. *)

From Stdlib Require Import ZArith Structures.OrderedTypeEx.
From stdpp Require Import gmap strings list sorting pretty.

Local Open Scope Z_scope.

(** ** Expression trees *)

(** Binary operator nodes of the IR (each is a struct of its own in the
    library; they share the shape [a], [b]). *)
Inductive BinOp : Set :=
| OpAdd | OpSub | OpMod | OpMul | OpDiv | OpMin | OpMax
| OpEQ | OpNE | OpLT | OpLE | OpGT | OpGE | OpAnd | OpOr.

(** Modelled from the spec: the expression node type (declared in the
    library headers, not in the driver). Integer immediates, named variables
    ([Var] is the library's Variable node; rule wildcards are variables
    too), fixed-arity operators, and calls, which is how a serialized
    [rewrite(lhs, rhs, predicate)] term arrives. *)
#[warnings="-register-all"]
Inductive IRNode : Set :=
| IntImm (value : Z)
| Var (name : string)
| Bin (op : BinOp) (a b : IRNode)
| Not (a : IRNode)
| Select (condition true_value false_value : IRNode)
| Call (name : string) (args : list IRNode).

Abbreviation Add := (Bin OpAdd).
Abbreviation Sub := (Bin OpSub).
Abbreviation Mul := (Bin OpMul).
Abbreviation Or := (Bin OpOr).

Global Instance IRNode_inhabited : Inhabited IRNode := populate (IntImm 0).

(** Modelled from the spec: [Expr], a counted reference to an immutable
    node: the address is the identity of the reference, the node is what
    every structural operation looks at. *)
Record Expr : Set := mkExpr { addr : positive; node : IRNode }.

(** Modelled from the spec: [same_as], the identity check: the two
    references point to the same node. *)
Definition same_as (a b : Expr) : bool := bool_decide (addr a = addr b).

(** Induction principle that also covers the arguments of a call. *)
Section IRNode_induction.
Variable P : IRNode → Prop.
Hypothesis HInt : ∀ v, P (IntImm v).
Hypothesis HVar : ∀ n, P (Var n).
Hypothesis HBin : ∀ op a b, P a → P b → P (Bin op a b).
Hypothesis HNot : ∀ a, P a → P (Not a).
Hypothesis HSel : ∀ c t f, P c → P t → P f → P (Select c t f).
Hypothesis HCall : ∀ n args, Forall P args → P (Call n args).

Fixpoint IRNode_ind' (e : IRNode) : P e :=
  match e with
  | IntImm v => HInt v
  | Var n => HVar n
  | Bin op a b => HBin op a b (IRNode_ind' a) (IRNode_ind' b)
  | Not a => HNot a (IRNode_ind' a)
  | Select c t f => HSel c t f (IRNode_ind' c) (IRNode_ind' t) (IRNode_ind' f)
  | Call n args =>
      HCall n args
        ((fix go (l : list IRNode) : Forall P l :=
            match l with
            | [] => @List.Forall_nil _ P
            | x :: l' => @List.Forall_cons _ P x l' (IRNode_ind' x) (go l')
            end) args)
  end.
End IRNode_induction.

(** ** Structural ordering *)

Definition binop_rank (op : BinOp) : nat :=
  match op with
  | OpAdd => 7 | OpSub => 8 | OpMod => 9 | OpMul => 10 | OpDiv => 11
  | OpMin => 12 | OpMax => 13 | OpEQ => 14 | OpNE => 15 | OpLT => 16
  | OpLE => 17 | OpGT => 18 | OpGE => 19 | OpAnd => 20 | OpOr => 21
  end%nat.

(** Position of the node kind in the kind enumeration. *)
Definition node_type (e : IRNode) : nat :=
  match e with
  | IntImm _ => 0
  | Var _ => 6
  | Bin op _ _ => binop_rank op
  | Not _ => 22
  | Select _ _ _ => 23
  | Call _ _ => 26
  end%nat.

(** Lexicographic combination: the second result decides only on a tie. *)
Definition lex (c1 c2 : comparison) : comparison :=
  match c1 with Eq => c2 | _ => c1 end.

(** Modelled from the spec: the three-way structural comparison behind
    [IRDeepCompare] and [equal]: node kind first; for equal kinds the
    children pairwise left to right, and the leaf payload (name or integer
    value). *)
Fixpoint compare_expr (x y : IRNode) : comparison :=
  lex (Nat.compare (node_type x) (node_type y))
    match x, y with
    | IntImm v1, IntImm v2 => Z.compare v1 v2
    | Var n1, Var n2 => String.compare n1 n2
    | Bin _ a1 b1, Bin _ a2 b2 => lex (compare_expr a1 a2) (compare_expr b1 b2)
    | Not a1, Not a2 => compare_expr a1 a2
    | Select c1 t1 f1, Select c2 t2 f2 =>
        lex (compare_expr c1 c2) (lex (compare_expr t1 t2) (compare_expr f1 f2))
    | Call n1 l1, Call n2 l2 =>
        lex (String.compare n1 n2)
          ((fix compare_expr_vector (l1 l2 : list IRNode) : comparison :=
              match l1, l2 with
              | [], [] => Eq
              | [], _ :: _ => Lt
              | _ :: _, [] => Gt
              | a1 :: l1', a2 :: l2' =>
                  lex (compare_expr a1 a2) (compare_expr_vector l1' l2')
              end) l1 l2)
    | _, _ => Eq
    end.

Fixpoint compare_expr_vector (l1 l2 : list IRNode) : comparison :=
  match l1, l2 with
  | [], [] => Eq
  | [], _ :: _ => Lt
  | _ :: _, [] => Gt
  | a1 :: l1', a2 :: l2' => lex (compare_expr a1 a2) (compare_expr_vector l1' l2')
  end.

(** Modelled from the spec: [IRDeepCompare], the comparator of the
    de-duplicating set: strictly less in the structural comparison. *)
Definition IRDeepCompare (a b : Expr) : bool :=
  match compare_expr (node a) (node b) with Lt => true | _ => false end.

(** Modelled from the spec: [equal], structural equality: the structural
    comparison says equal. *)
Definition equal (a b : Expr) : bool :=
  match compare_expr (node a) (node b) with Eq => true | _ => false end.

(** What [compare_expr] looks at once the node kinds are known to agree. *)
Definition compare_children (x y : IRNode) : comparison :=
  match x, y with
  | IntImm v1, IntImm v2 => Z.compare v1 v2
  | Var n1, Var n2 => String.compare n1 n2
  | Bin _ a1 b1, Bin _ a2 b2 => lex (compare_expr a1 a2) (compare_expr b1 b2)
  | Not a1, Not a2 => compare_expr a1 a2
  | Select c1 t1 f1, Select c2 t2 f2 =>
      lex (compare_expr c1 c2) (lex (compare_expr t1 t2) (compare_expr f1 f2))
  | Call n1 l1, Call n2 l2 => lex (String.compare n1 n2) (compare_expr_vector l1 l2)
  | _, _ => Eq
  end.


(** The strict order on expressions induced by [IRDeepCompare]. *)
Definition expr_lt (a b : Expr) : Prop := IRDeepCompare a b = true.


(** ** Library operations the driver calls *)

(** Modelled from the spec: [is_zero], the test behind the vacuous-predicate
    filter: the expression is syntactically the constant false, which in
    this expression model is the immediate [0]. *)
Definition is_zero (e : IRNode) : bool :=
  match e with
  | IntImm v => bool_decide (v = 0)
  | _ => false
  end.

(** Modelled from the spec: [substitute], structural substitution of the
    bound names; a new tree is built, nothing is changed in place. *)
Fixpoint substitute (binding : gmap string IRNode) (e : IRNode) : IRNode :=
  match e with
  | IntImm v => IntImm v
  | Var n => match binding !! n with Some v => v | None => Var n end
  | Bin op a b => Bin op (substitute binding a) (substitute binding b)
  | Not a => Not (substitute binding a)
  | Select c t f =>
      Select (substitute binding c) (substitute binding t) (substitute binding f)
  | Call n args => Call n (map (substitute binding) args)
  end.

(** Modelled from the spec: [find_vars], the set of distinct variable names
    occurring in a tree (the driver reads only the names, [p.first]). *)
Fixpoint find_vars (e : IRNode) : gset string :=
  match e with
  | IntImm _ => ∅
  | Var n => {[ n ]}
  | Bin _ a b => find_vars a ∪ find_vars b
  | Not a => find_vars a
  | Select c t f => find_vars c ∪ find_vars t ∪ find_vars f
  | Call _ args => foldr (λ a acc, find_vars a ∪ acc) ∅ args
  end.

(** Modelled from the spec: [expr_uses_var], true iff the name occurs as a
    variable leaf anywhere in the tree. *)
Fixpoint expr_uses_var (e : IRNode) (v : string) : bool :=
  match e with
  | IntImm _ => false
  | Var n => bool_decide (n = v)
  | Bin _ a b => expr_uses_var a v || expr_uses_var b v
  | Not a => expr_uses_var a v
  | Select c t f => expr_uses_var c v || expr_uses_var t v || expr_uses_var f v
  | Call _ args => existsb (λ a, expr_uses_var a v) args
  end.

(** ** The leaf counter *)

(** The counter is a C++ [int]: 32 bits, two's complement. *)
Definition wrap_int (z : Z) : Z := (z + 2 ^ 31) `mod` 2 ^ 32 - 2 ^ 31.

(** [e.accept(&counter)] for the local visitor [CountLeaves]: the two
    overridden [visit] methods bump [count] at an [IntImm] and at a
    variable; every other node kind falls to the base visitor, which walks
    the children in order. The state is the [count] field. *)
Fixpoint CountLeaves_accept (e : IRNode) (count : Z) : Z :=
  match e with
  | IntImm _ => wrap_int (count + 1)
  | Var _ => wrap_int (count + 1)
  | Bin _ a b => CountLeaves_accept b (CountLeaves_accept a count)
  | Not a => CountLeaves_accept a count
  | Select c t f =>
      CountLeaves_accept f (CountLeaves_accept t (CountLeaves_accept c count))
  | Call _ args => foldl (λ count a, CountLeaves_accept a count) count args
  end.

(** The leaf count in the spec's words: the number of constant and variable
    occurrences of a tree; operator nodes are not counted, wildcards (which
    are variables) are. *)
Fixpoint leaf_count (e : IRNode) : Z :=
  match e with
  | IntImm _ => 1
  | Var _ => 1
  | Bin _ a b => leaf_count a + leaf_count b
  | Not a => leaf_count a
  | Select c t f => leaf_count c + leaf_count t + leaf_count f
  | Call _ args => foldr (λ a acc, leaf_count a + acc) 0 args
  end.

(** ** The de-duplicating set *)

(** [std::set<Expr, IRDeepCompare>] seen through its iteration order: a list
    kept strictly increasing. Inserting an element equivalent to one already
    present (neither is less than the other) leaves the set as it is. *)
Fixpoint set_insert (e : Expr) (s : list Expr) : list Expr :=
  match s with
  | [] => [e]
  | x :: s' =>
      if IRDeepCompare e x then e :: x :: s'
      else if IRDeepCompare x e then x :: set_insert e s'
      else x :: s'
  end.

(** [exprs.insert(first, last)]: the elements are inserted one by one. *)
Definition set_insert_range (v : list Expr) (s : list Expr) : list Expr :=
  foldl (λ s e, set_insert e s) s v.

(** ** Rules, output lines, termination *)

(** [struct Rule]. Only [orig] keeps its reference: its address is the one
    the driver ever compares ([same_as]); of the other three fields only the
    trees are looked at. *)
Record Rule : Set := mkRule {
  lhs : IRNode;
  rhs : IRNode;
  predicate : IRNode;
  orig : Expr
}.

(** One entry per statement that writes to [std::cout]. *)
Inductive Line : Set :=
| Usage
| Resynthesizing (orig : Expr)
| FalsePredicate (orig : Expr)
| ImplicitRule (orig : Expr)
| SimplifiableLHS (lhs simpler_lhs : IRNode)
| TooSpecific (orig orig2 : Expr)
| GoodRule (lhs rhs predicate : IRNode).

(** One entry per diagnostic written to [std::cerr]. *)
Inductive Diag : Set :=
| NotARewriteRule (e : Expr)
| ConditionFailed (condition : string).

(** How the run ends: [main] returns a code, or a failed assertion stops
    the process. *)
Inductive Termination : Set :=
| Return (code : Z)
| Abort.

Definition nonzero_status (t : Termination) : Prop :=
  match t with Return code => code ≠ 0 | Abort => True end.

Record Outcome : Set := mkOutcome {
  cout : list Line;
  cerr : list Diag;
  status : Termination
}.

Definition nl : string := String (Ascii.ascii_of_nat 10) EmptyString.

(** ** The driver *)

(** Collaborators of the driver, taken as they are called: the parser of
    the rule file, the predicate synthesizer (it returns the predicate and
    fills the binding it was handed), the baseline simplifier, the
    generality check (it returns its verdict and fills the binding), the
    prover, and the printer behind [operator<<]. *)
Class Collaborators : Type := {
  parse_halide_exprs_from_file : string → list Expr;
  synthesize_predicate :
    IRNode → IRNode → list (gmap string IRNode) → gmap string IRNode →
    IRNode * gmap string IRNode;
  simplify : IRNode → IRNode;
  more_general_than :
    IRNode → IRNode → gmap string IRNode → bool * gmap string IRNode;
  can_prove : IRNode → bool;
  print : IRNode → string
}.

Section Driver.

Context `{Collaborators}.

(** The characters a line puts on the stream. *)
Definition show (l : Line) : string :=
  match l with
  | Usage => "Usage: ./filter_rewrite_rules rewrite_rules.txt" +:+ nl
  | Resynthesizing o => "Re-synthesizing predicate for " +:+ print (node o) +:+ nl
  | FalsePredicate o => "False predicate: " +:+ print (node o) +:+ nl
  | ImplicitRule o => "Implicit rule: " +:+ print (node o) +:+ nl
  | SimplifiableLHS l s =>
      "Simplifiable LHS: " +:+ print l +:+ " -> " +:+ print s +:+ nl
  | TooSpecific o o2 =>
      "Too specific: " +:+ print (node o) +:+ " vs " +:+ print (node o2) +:+ nl
  | GoodRule l r p =>
      "Good rule: rewrite(" +:+ print l +:+ ", " +:+ print r +:+ ", "
        +:+ print p +:+ ")" +:+ nl
  end.

Definition show_diag (d : Diag) : string :=
  match d with
  | NotARewriteRule e => "Expr is not a rewrite rule: " +:+ print (node e) +:+ nl
  | ConditionFailed c => "Condition failed: " +:+ c +:+ nl
  end.

(** The text of a stream: its lines one after the other. *)
Definition text (ls : list Line) : string := foldr (λ l acc, show l +:+ acc) "" ls.

(** Modelled from the spec: [_halide_user_assert], the assertion macro of
    the library. A condition that holds lets the run go on; a condition
    that fails writes a diagnostic to the error stream and ends the run
    there with a nonzero status. *)
Definition _halide_user_assert (condition : bool) (text : string)
  : option (Diag * Termination) :=
  if condition then None else Some (ConditionFailed text, Abort).

(** The loop that turns the set into rules (source lines 35-47). The first
    element that is not a call to [rewrite] ends the run with [-1]; a call
    to [rewrite] has to have three arguments. *)
Fixpoint build_rules (exprs : list Expr) (rules : list Rule)
  : Diag * Termination + list Rule :=
  match exprs with
  | [] => inr rules
  | e :: exprs' =>
      match node e with
      | Call name args =>
          if bool_decide (name ≠ "rewrite") then
            inl (NotARewriteRule e, Return (-1))
          else
            match _halide_user_assert (bool_decide (length args = 3%nat))
                    "call->args.size() == 3" with
            | Some failure => inl failure
            | None =>
                build_rules exprs'
                  (rules ++ [mkRule (args !!! 0%nat) (args !!! 1%nat) (args !!! 2%nat) e])
            end
      | _ => inl (NotARewriteRule e, Return (-1))
      end
  end.

(** Body of the re-synthesis loop (source lines 50-57): the new state of
    the rule. *)
Definition resynthesize (r : Rule) : Rule :=
  let examples : list (gmap string IRNode) := [] in
  let binding : gmap string IRNode := ∅ in
  let '(p, binding) := synthesize_predicate (lhs r) (rhs r) examples binding in
  let r := mkRule (lhs r) (rhs r) p (orig r) in
  let r := mkRule (substitute binding (lhs r)) (rhs r) (predicate r) (orig r) in
  mkRule (lhs r) (substitute binding (rhs r)) (predicate r) (orig r).

(** The re-synthesis loop: each rule is updated in place and announced. *)
Fixpoint resynthesize_all (rules : list Rule) : list Rule * list Line :=
  match rules with
  | [] => ([], [])
  | r :: rules' =>
      let line := Resynthesizing (orig r) in
      let r' := resynthesize r in
      let '(rs, lines) := resynthesize_all rules' in
      (r' :: rs, line :: lines)
  end.

(** The implicit-rule check (source lines 85-92): some variable of the
    right-hand side is not used by the left-hand side. *)
Definition implicit (r : Rule) : bool :=
  let vars := find_vars (rhs r) in
  existsb (λ p, negb (expr_uses_var (lhs r) p)) (elements vars).

(** The leaf comparison (source lines 108-113): the final value of
    [counter.count]. *)
Definition leaf_balance (lhs simpler_lhs : IRNode) : Z :=
  let count := CountLeaves_accept lhs 0 in
  let count := wrap_int (- count) in
  CountLeaves_accept simpler_lhs count.

(** The condition of the [if] in the domination loop (source lines
    122-124). *)
Definition dominated_by (r r2 : Rule) : bool :=
  let binding : gmap string IRNode := ∅ in
  let '(more_general, binding) := more_general_than (lhs r2) (lhs r) binding in
  more_general && can_prove (Or (predicate r2) (substitute binding (Not (predicate r)))).

(** The domination loop (source lines 119-129): the first rule of the list
    that is not the very same rule and dominates [r]. *)
Definition find_dominating (rules : list Rule) (r : Rule) : option Rule :=
  List.find (λ r2, negb (same_as (orig r) (orig r2)) && dominated_by r r2) rules.

(** Body of the classification loop after the duplicate check (source
    lines 78-133): the one line it writes. *)
Definition classify (rules : list Rule) (r : Rule) : Line :=
  if is_zero (predicate r) then FalsePredicate (orig r)
  else if implicit r then ImplicitRule (orig r)
  else
    let simpler_lhs := simplify (lhs r) in
    if bool_decide (leaf_balance (lhs r) simpler_lhs < 0) then
      SimplifiableLHS (lhs r) simpler_lhs
    else
      match find_dominating rules r with
      | Some r2 => TooSpecific (orig r) (orig r2)
      | None => GoodRule (lhs r) (rhs r) (predicate r)
      end.

(** The classification loop (source lines 70-134); [last] is the origin
    of the rule handled before, undefined at first. *)
Fixpoint classify_loop (rules : list Rule) (last : option Expr) (rs : list Rule)
  : list Line :=
  match rs with
  | [] => []
  | r :: rs' =>
      if match last with Some l => equal (orig r) l | None => false end
      then classify_loop rules last rs'
      else classify rules r :: classify_loop rules (Some (orig r)) rs'
  end.

(** [main] from the parsed expressions on. *)
Definition run (exprs_vec : list Expr) : Outcome :=
  let exprs := set_insert_range exprs_vec [] in
  match build_rules exprs [] with
  | inl (d, t) => mkOutcome [] [d] t
  | inr rules =>
      let '(rules, lines1) := resynthesize_all rules in
      let lines2 := classify_loop rules None rules in
      mkOutcome (lines1 ++ lines2) [] (Return 0)
  end.

Definition main (argv : list string) : Outcome :=
  if bool_decide (length argv < 2)%nat then mkOutcome [Usage] [] (Return 0)
  else run (parse_halide_exprs_from_file (default "" (argv !! 1%nat))).

End Driver.


(** ** Notions the properties are stated with *)

(** A top-level term the driver accepts: a call to [rewrite] with exactly
    three arguments. *)
Definition is_rewrite_rule (e : IRNode) : bool :=
  match e with
  | Call name [_; _; _] => bool_decide (name = "rewrite")
  | _ => false
  end.

(** The rule the driver builds from an accepted term. *)
Definition rule_of (e : Expr) : Rule :=
  match node e with
  | Call _ args => mkRule (args !!! 0%nat) (args !!! 1%nat) (args !!! 2%nat) e
  | _ => mkRule (node e) (node e) (node e) e
  end.

(** An address holds one node: two references with the same address point to
    the same tree. *)
Definition heap_ok (l : list Expr) : bool :=
  forallb (λ a, forallb (λ b, implb (same_as a b) (equal a b)) l) l.

(** The line is one of the five verdicts, and it is about the rule [r]. *)
Definition verdict_of (r : Rule) (l : Line) : Prop :=
  match l with
  | FalsePredicate o | ImplicitRule o | TooSpecific o _ => o = orig r
  | SimplifiableLHS l _ => l = lhs r
  | GoodRule l rh p => l = lhs r ∧ rh = rhs r ∧ p = predicate r
  | Usage | Resynthesizing _ => False
  end.

(** The strict order of the trees themselves. *)
Definition node_lt (x y : IRNode) : Prop := compare_expr x y = Lt.

(** The range of a C++ [int]. *)
Definition INT_MAX : Z := 2 ^ 31 - 1.
Definition in_int (z : Z) : Prop := - 2 ^ 31 ≤ z ≤ INT_MAX.

(** Two rules that differ at most in the address of [orig]. *)
Definition rule_sim (r r' : Rule) : Prop :=
  lhs r = lhs r' ∧ rhs r = rhs r' ∧ predicate r = predicate r' ∧
  node (orig r) = node (orig r').

Section Stages.
Context `{Collaborators}.

(** The rule passes the three local filters, so the classification loop
    gets to the domination loop with it. *)
Definition reaches_domination (r : Rule) : bool :=
  negb (is_zero (predicate r)) && negb (implicit r)
  && negb (bool_decide (leaf_balance (lhs r) (simplify (lhs r)) < 0)).

(** The text of the error stream. *)
Definition text_diag (ds : list Diag) : string :=
  foldr (λ d acc, show_diag d +:+ acc) "" ds.
End Stages.

(** ** Stand-in collaborators for worked examples

    Small, conservative implementations of the collaborators, enough to run
    the driver on concrete rule files. *)
Module Sample.

Definition x : IRNode := Var "x".
Definition y : IRNode := Var "y".
Definition z : IRNode := Var "z".
Definition const_true : IRNode := IntImm 1.
Definition const_false : IRNode := IntImm 0.
Definition rewrite (l r p : IRNode) : IRNode := Call "rewrite" [l; r; p].

Definition same_tree (a b : IRNode) : bool :=
  match compare_expr a b with Eq => true | _ => false end.

(** The parser hands out a fresh node per top-level term. *)
Definition load (terms : list IRNode) : list Expr :=
  imap (λ i t, mkExpr (Pos.of_succ_nat i) t) terms.

(** A simplifier that knows one identity: [a - a] is [0] for a variable
    [a]. *)
Definition simp (e : IRNode) : IRNode :=
  match e with
  | Bin OpSub (Var a) (Var b) => if bool_decide (a = b) then IntImm 0 else e
  | _ => e
  end.

(** A synthesizer that proves [a - a = 0] and [a + 0 = a] unconditionally
    and gives up (predicate [false]) on anything else. *)
Definition synth (lhs rhs : IRNode)
    (examples : list (gmap string IRNode)) (binding : gmap string IRNode)
  : IRNode * gmap string IRNode :=
  match lhs, rhs with
  | Bin OpSub a b, IntImm 0 =>
      (if same_tree a b then const_true else const_false, binding)
  | Bin OpAdd a (IntImm 0), b =>
      (if same_tree a b then const_true else const_false, binding)
  | _, _ => (const_false, binding)
  end.

(** A matcher without commutativity: variables of the pattern bind
    consistently, everything else has to agree node by node. *)
Fixpoint match_pattern (a b : IRNode) (binding : gmap string IRNode)
  : option (gmap string IRNode) :=
  match a with
  | Var n =>
      match binding !! n with
      | Some t => if same_tree t b then Some binding else None
      | None => Some (<[n := b]> binding)
      end
  | IntImm v =>
      match b with
      | IntImm w => if bool_decide (v = w) then Some binding else None
      | _ => None
      end
  | Bin op a1 a2 =>
      match b with
      | Bin op' b1 b2 =>
          if bool_decide (binop_rank op = binop_rank op') then
            match match_pattern a1 b1 binding with
            | Some binding => match_pattern a2 b2 binding
            | None => None
            end
          else None
      | _ => None
      end
  | Not a1 =>
      match b with
      | Not b1 => match_pattern a1 b1 binding
      | _ => None
      end
  | Select c t f =>
      match b with
      | Select c' t' f' =>
          match match_pattern c c' binding with
          | Some binding =>
              match match_pattern t t' binding with
              | Some binding => match_pattern f f' binding
              | None => None
              end
          | None => None
          end
      | _ => None
      end
  | Call _ _ => None
  end.

Definition matcher (a b : IRNode) (binding : gmap string IRNode)
  : bool * gmap string IRNode :=
  match match_pattern a b binding with
  | Some binding => (true, binding)
  | None => (false, binding)
  end.

(** A prover that only sees a disjunction whose left side is the constant
    true. *)
Definition prover (e : IRNode) : bool :=
  match e with
  | Bin OpOr (IntImm 1) _ => true
  | _ => false
  end.

Definition binop_symbol (op : BinOp) : string :=
  match op with
  | OpAdd => " + " | OpSub => " - " | OpMod => " % " | OpMul => "*"
  | OpDiv => "/" | OpMin => " min " | OpMax => " max " | OpEQ => " == "
  | OpNE => " != " | OpLT => " < " | OpLE => " <= " | OpGT => " > "
  | OpGE => " >= " | OpAnd => " && " | OpOr => " || "
  end.

Fixpoint join (sep : string) (l : list string) : string :=
  match l with
  | [] => ""
  | [a] => a
  | a :: l' => a +:+ sep +:+ join sep l'
  end.

Fixpoint printer (e : IRNode) : string :=
  match e with
  | IntImm v => pretty v
  | Var n => n
  | Bin op a b => "(" +:+ printer a +:+ binop_symbol op +:+ printer b +:+ ")"
  | Not a => "!" +:+ printer a
  | Select c t f =>
      "select(" +:+ printer c +:+ ", " +:+ printer t +:+ ", " +:+ printer f +:+ ")"
  | Call n args => n +:+ "(" +:+ join ", " (map printer args) +:+ ")"
  end.

(** Rule files. *)
Definition scenario_a : list IRNode :=
  [rewrite (Sub x x) (IntImm 0) const_true].
Definition shadowed : list IRNode :=
  [rewrite (Sub x x) (IntImm 0) const_true;
   rewrite (Sub (Mul y z) (Mul y z)) (IntImm 0) const_true].
Definition shadowed_reordered : list IRNode :=
  [rewrite (Sub (Mul y z) (Mul y z)) (IntImm 0) const_true;
   rewrite (Sub x x) (IntImm 0) const_true;
   rewrite (Sub x x) (IntImm 0) const_true].
Definition malformed : list IRNode :=
  [rewrite (Sub x x) (IntImm 0) const_true; Call "rewrite" [y; x]].

Definition swapped : list IRNode :=
  [rewrite (Sub (Mul y z) (Mul y z)) (IntImm 0) const_true;
   rewrite (Sub x x) (IntImm 0) const_true].

Definition parse (path : string) : list Expr :=
  if bool_decide (path = "scenario_a.txt") then load scenario_a
  else if bool_decide (path = "shadowed.txt") then load shadowed
  else if bool_decide (path = "shadowed_reordered.txt") then load shadowed_reordered
  else if bool_decide (path = "malformed.txt") then load malformed
  else [].

#[export] Instance collaborators : Collaborators := {|
  parse_halide_exprs_from_file := parse;
  synthesize_predicate := synth;
  simplify := simp;
  more_general_than := matcher;
  can_prove := prover;
  print := printer
|}.

(** The rules of [shadowed] as the classification loop sees them. *)
Definition shadowed_rules : list Rule :=
  (resynthesize_all (rule_of <$> set_insert_range (load shadowed) [])).1.

Definition general_origin : Expr :=
  mkExpr 1 (rewrite (Sub x x) (IntImm 0) const_true).
Definition specific_origin : Expr :=
  mkExpr 2 (rewrite (Sub (Mul y z) (Mul y z)) (IntImm 0) const_true).
Definition general_rule : Rule :=
  mkRule (Sub x x) (IntImm 0) const_true general_origin.
Definition specific_rule : Rule :=
  mkRule (Sub (Mul y z) (Mul y z)) (IntImm 0) const_true specific_origin.
Definition implicit_rule : Rule :=
  mkRule y x const_true (mkExpr 1 (rewrite y x const_true)).

(** The same rule [a + 0 -> a] written with two variable names. *)
Definition twins : list IRNode :=
  [rewrite (Add x (IntImm 0)) x const_true;
   rewrite (Add y (IntImm 0)) y const_true].
Definition twin_x : Rule :=
  mkRule (Add x (IntImm 0)) x const_true
    (mkExpr 1 (rewrite (Add x (IntImm 0)) x const_true)).
Definition twin_y : Rule :=
  mkRule (Add y (IntImm 0)) y const_true
    (mkExpr 2 (rewrite (Add y (IntImm 0)) y const_true)).

End Sample.

(** ** The tensor model ([namespace interpret_nn], source lines 145-275) *)

Module interpret_nn.

(** [enum class TensorType], with the enumerators the switches name. *)
Module TensorType.
Inductive t : Set :=
| Float32 | Float16 | Int32 | UInt8 | Int64 | Int16
| Complex64 | Int8 | Float64 | Complex128 | String | Bool.
End TensorType.

(** A function that can end in [APP_FATAL] or in a failed [APP_CHECK]
    (macros of the application's utility header): it returns a value or the
    program stops with a message. *)
Inductive Checked (A : Type) : Type :=
| Done (a : A)
| Fatal (message : string).
Arguments Done {A} a.
Arguments Fatal {A} message.

Global Instance Checked_bind : MBind Checked :=
  λ A B f c, match c with Done a => f a | Fatal m => Fatal m end.

(** [APP_CHECK(condition)]. *)
Definition APP_CHECK (condition : bool) (text : string) : Checked unit :=
  if condition then Done () else Fatal text.

Inductive halide_type_code_t : Set :=
| halide_type_int | halide_type_uint | halide_type_float.

(** [halide_type_t(code, bits)]; the lanes default to 1. *)
Record halide_type_t : Set := mk_halide_type_t {
  code : halide_type_code_t;
  bits : Z;
  lanes : Z
}.

Definition halide_type (code : halide_type_code_t) (bits : Z) : halide_type_t :=
  mk_halide_type_t code bits 1.

Definition SizeOfTensorType (t : TensorType.t) : Checked Z :=
  match t with
  | TensorType.Float32 => Done 4
  | TensorType.Float16 => Done 2
  | TensorType.Int32 => Done 4
  | TensorType.UInt8 => Done 1
  | TensorType.Int64 => Done 8
  | TensorType.Int16 => Done 2
  | TensorType.Complex64 => Done 16
  | TensorType.Int8 => Done 1
  | TensorType.Float64 => Done 8
  | TensorType.Complex128 => Done 32
  | _ => Fatal "Unknown size of type"
  end.

Definition TensorTypeToString (t : TensorType.t) : Checked string :=
  match t with
  | TensorType.Float32 => Done "float32"
  | TensorType.Float16 => Done "float16"
  | TensorType.Int32 => Done "int32"
  | TensorType.UInt8 => Done "uint8"
  | TensorType.Int64 => Done "int64"
  | TensorType.Int16 => Done "int16"
  | TensorType.Complex64 => Done "complex64"
  | TensorType.Int8 => Done "int8"
  | TensorType.Float64 => Done "float64"
  | TensorType.Complex128 => Done "complex128"
  | TensorType.String => Done "string"
  | TensorType.Bool => Done "bool"
  end.

Definition TensorTypeToHalideType (t : TensorType.t) : Checked halide_type_t :=
  match t with
  | TensorType.Bool => Done (halide_type halide_type_uint 1)
  | TensorType.Float16 => Done (halide_type halide_type_float 16)
  | TensorType.Float32 => Done (halide_type halide_type_float 32)
  | TensorType.Float64 => Done (halide_type halide_type_float 64)
  | TensorType.Int16 => Done (halide_type halide_type_int 16)
  | TensorType.Int32 => Done (halide_type halide_type_int 32)
  | TensorType.Int64 => Done (halide_type halide_type_int 64)
  | TensorType.Int8 => Done (halide_type halide_type_int 8)
  | TensorType.UInt8 => Done (halide_type halide_type_uint 8)
  | TensorType.Complex64 | TensorType.Complex128 | TensorType.String =>
      Fatal "Unhandled type in TensorTypeToHalideType"
  end.

(** [halide_dimension_t]: three 32-bit integers and the flags. *)
Record halide_dimension_t : Set := mk_halide_dimension_t {
  min : Z;
  extent : Z;
  stride : Z;
  flags : Z
}.

(** The part of [class Tensor] that [Allocate] reads and writes: the name,
    the type that [Type()] returns ([type_] here), the shape and the
    bytes. *)
Record Tensor : Set := mkTensor {
  Name : string;
  type_ : TensorType.t;
  shape_ : list halide_dimension_t;
  data_ : list Z
}.

(** Conversion of an integer to [size_t] (64 bits, unsigned). *)
Definition to_size_t (z : Z) : Z := z `mod` 2 ^ 64.

(** The loop of [Tensor::Allocate] (source lines 254-261), from the
    dimension it is at on: the dimensions with their strides checked or
    set, and the final [shape_size]. A stride is an [int]: storing
    [shape_size] in it keeps the low 32 bits. *)
Fixpoint Allocate_strides (shape : list halide_dimension_t) (shape_size : Z)
  : Checked (list halide_dimension_t * Z) :=
  match shape with
  | [] => Done ([], shape_size)
  | i :: shape' =>
      i ← (if bool_decide (stride i ≠ 0) then
             _ ← APP_CHECK (bool_decide (to_size_t (stride i) = shape_size))
                   "(size_t) i.stride == shape_size";
             Done i
           else
             Done (mk_halide_dimension_t (min i) (extent i) (wrap_int shape_size)
                     (flags i)));
      let shape_size := to_size_t (shape_size * to_size_t (extent i)) in
      '(shape', shape_size) ← Allocate_strides shape' shape_size;
      Done (i :: shape', shape_size)
  end.

(** [Tensor::Allocate] (source lines 252-268). *)
Definition Allocate (t : Tensor) : Checked Tensor :=
  let shape_size := 1 in
  '(shape, shape_size) ← Allocate_strides (shape_ t) shape_size;
  size ← SizeOfTensorType (type_ t);
  let shape_size := to_size_t (shape_size * size) in
  if bool_decide (data_ t = []) then
    Done (mkTensor (Name t) (type_ t) shape (replicate (Z.to_nat shape_size) 0))
  else
    _ ← APP_CHECK (bool_decide (Z.of_nat (length (data_ t)) = shape_size))
          "data_.size() == shape_size";
    Done (mkTensor (Name t) (type_ t) shape (data_ t)).

(** *** Notions for the layout *)

(** The number of elements of a shape. *)
Fixpoint elements_of (shape : list halide_dimension_t) : Z :=
  match shape with
  | [] => 1
  | i :: shape' => extent i * elements_of shape'
  end.

(** Dense layout from the running product [p] on: each stride is the
    product of the extents before it. *)
Fixpoint dense_from (p : Z) (shape : list halide_dimension_t) : Prop :=
  match shape with
  | [] => True
  | i :: shape' => stride i = p ∧ dense_from (p * extent i) shape'
  end.

(** Each stride is unset (zero) or the dense one. *)
Fixpoint dense_or_unset_from (p : Z) (shape : list halide_dimension_t) : Prop :=
  match shape with
  | [] => True
  | i :: shape' =>
      (stride i = 0 ∨ stride i = p) ∧ dense_or_unset_from (p * extent i) shape'
  end.

(** The shape is small: every stride is an [int], no extent is negative,
    and every running product of the extents fits an [int]. *)
Fixpoint small_from (p : Z) (shape : list halide_dimension_t) : Prop :=
  match shape with
  | [] => True
  | i :: shape' =>
      in_int (stride i) ∧ 0 ≤ extent i ∧ p * extent i < 2 ^ 31
      ∧ small_from (p * extent i) shape'
  end.

(** A dimension up to its stride. *)
Definition same_box (i j : halide_dimension_t) : Prop :=
  min i = min j ∧ extent i = extent j ∧ flags i = flags j.

(** Two tensors for worked examples: a 3 x 4 byte image that has no strides
    and no bytes yet, and a one-element tensor of booleans. *)
Definition unallocated_image : Tensor :=
  mkTensor "image" TensorType.UInt8
    [mk_halide_dimension_t 0 3 0 0; mk_halide_dimension_t 0 4 0 0] [].
Definition flag : Tensor :=
  mkTensor "flag" TensorType.Bool [mk_halide_dimension_t 0 1 0 0] [].

End interpret_nn.

(** ** The table of rules for [!=] ([src/Simplify_NE.inc]) *)

(** The node kinds, in the order of the kind enumeration. *)
Module IRNodeType.
Inductive t : Set :=
| IntImm | Var | Add | Sub | Mod | Mul | Div | Min | Max
| EQ | NE | LT | LE | GT | GE | And | Or | Not | Select | Call.

Definition rank (k : t) : nat :=
  match k with
  | IntImm => 0 | Var => 6 | Add => 7 | Sub => 8 | Mod => 9 | Mul => 10
  | Div => 11 | Min => 12 | Max => 13 | EQ => 14 | NE => 15 | LT => 16
  | LE => 17 | GT => 18 | GE => 19 | And => 20 | Or => 21 | Not => 22
  | Select => 23 | Call => 26
  end%nat.
End IRNodeType.

(** The variable leaves of a tree, one entry per occurrence, left to
    right. *)
Fixpoint var_occurrences (e : IRNode) : list string :=
  match e with
  | IntImm _ => []
  | Var n => [n]
  | Bin _ a b => var_occurrences a ++ var_occurrences b
  | Not a => var_occurrences a
  | Select c t f => var_occurrences c ++ var_occurrences t ++ var_occurrences f
  | Call _ args => foldr (λ a acc, var_occurrences a ++ acc) [] args
  end.

(** The number of integer immediates of a tree. *)
Fixpoint const_count (e : IRNode) : Z :=
  match e with
  | IntImm _ => 1
  | Var _ => 0
  | Bin _ a b => const_count a + const_count b
  | Not a => const_count a
  | Select c t f => const_count c + const_count t + const_count f
  | Call _ args => foldr (λ a acc, const_count a + acc) 0 args
  end.

(** Every term a binding holds has a leaf. *)
Definition leafy (binding : gmap string IRNode) : Prop :=
  ∀ v t, binding !! v = Some t → 1 ≤ leaf_count t.

(** The number of leaves a binding puts in place of a variable. *)
Definition weight (binding : gmap string IRNode) (v : string) : Z :=
  match binding !! v with Some t => leaf_count t | None => 1 end.

Fixpoint total_weight (u : string → Z) (l : list string) : Z :=
  match l with
  | [] => 0
  | v :: l' => u v + total_weight u l'
  end.

Module Simplify_NE.

Declare Scope ir_scope.
Delimit Scope ir_scope with ir.
Bind Scope ir_scope with IRNode.

Definition IRNode_of_Z (v : Z) : IRNode := IntImm v.
Definition Z_of_IRNode (e : IRNode) : option Z :=
  match e with IntImm v => Some v | _ => None end.
Number Notation IRNode IRNode_of_Z Z_of_IRNode : ir_scope.

Infix "+" := (Bin OpAdd) : ir_scope.
Infix "-" := (Bin OpSub) : ir_scope.
Infix "*" := (Bin OpMul) : ir_scope.
Infix "/" := (Bin OpDiv) : ir_scope.
Infix "<" := (Bin OpLT) : ir_scope.
Infix "<=" := (Bin OpLE) : ir_scope.
Infix "!=" := (Bin OpNE) (at level 70, no associativity) : ir_scope.
Infix "||" := (Bin OpOr) : ir_scope.

(** The wildcards of the table and the functions its patterns use. *)
Definition x : IRNode := Var "x".
Definition y : IRNode := Var "y".
Definition z : IRNode := Var "z".
Definition w : IRNode := Var "w".
Definition c0 : IRNode := Var "c0".
Definition const_true : IRNode := IntImm 1.
Definition min (a b : IRNode) : IRNode := Bin OpMin a b.
Definition max (a b : IRNode) : IRNode := Bin OpMax a b.
Definition select (c t f : IRNode) : IRNode := Select c t f.

(** [a] and [b] are the two operands of the [!=] node under rewriting. *)
Inductive Side : Set := a_ | b_.

(** The file is one boolean expression: alternatives joined by [||], each a
    call of [rewrite] with two or three arguments or a test of an operand's
    node kind in front of further alternatives. *)
#[warnings="-register-all"]
Inductive Clause : Set :=
| rewrite2 (before after : IRNode)
| rewrite3 (before after predicate : IRNode)
| when (side : Side) (kind : IRNodeType.t) (alternatives : list Clause).

Definition clauses : list Clause := [
  when b_ IRNodeType.Add [
    rewrite2 (x != (y + (min x 0))) ((max 0 x) != y);
    rewrite2 (x != (y + (max x 0))) ((min 0 x) != y);
    rewrite2 (x != (z + (x - y))) (z != y);
    rewrite2 (x != ((x - y) + z)) (z != y);
    rewrite2 (x != ((min x 0) + y)) ((max x 0) != y);
    rewrite2 (x != ((max x 0) + y)) (y != (min x 0));
    rewrite2 (y != (x + (x - y))) (y != x);
    rewrite2 (y != ((x - y) + x)) (x != y)];
  when b_ IRNodeType.Sub [
    rewrite2 (x != ((x - y) - z)) ((z + y) != 0);
    rewrite2 (y != ((x + y) - z)) (x != z);
    rewrite2 (y != ((y + x) - z)) (x != z);
    rewrite2 (y != ((x - y) - y)) ((3*y) != x)];
  when b_ IRNodeType.Div [
    rewrite3 (x != (x/c0)) (x != 0) (c0 <= -1)];
  when b_ IRNodeType.Min [
    rewrite2 (y != (min z (min x y))) ((min z x) < y);
    rewrite2 (y != (min z (min y x))) ((min z x) < y);
    rewrite2 (y != (min (min x y) z)) ((min x z) < y);
    rewrite2 (y != (min (min y x) z)) ((min z x) < y)];
  when b_ IRNodeType.Max [
    rewrite2 (y != (max z (max x y))) (y < (max z x));
    rewrite2 (y != (max z (max y x))) (y < (max z x));
    rewrite2 (y != (max (max x y) z)) (y < (max x z));
    rewrite2 (y != (max (max y x) z)) (y < (max x z))];
  when b_ IRNodeType.Select [
    rewrite2 (y != (select x 0 (y - z))) ((select x y z) != 0);
    rewrite2 (y != (select x (y - z) 0)) ((select x z y) != 0);
    rewrite2 (y != (select x (y - z) z)) ((select x 0 y) != z);
    rewrite3 (y != (select x (y*c0) z)) (y != (select x 0 z)) ((2 <= c0) || (c0 <= -1));
    rewrite2 (z != (select x y (y + z))) ((select x z 0) != y);
    rewrite2 (z != (select x y (z + y))) ((select x z 0) != y);
    rewrite2 (z != (select x y (z - y))) ((select x z 0) != y);
    rewrite3 (z != (select x y (z*c0))) (z != (select x y 0)) ((2 <= c0) || (c0 <= -1));
    rewrite2 (z != (select x (y + z) y)) ((select x 0 z) != y);
    rewrite2 (z != (select x (z + y) y)) (y != (select x 0 z))];
  when a_ IRNodeType.Add [
    when b_ IRNodeType.IntImm [
      rewrite2 (((x - y) + (x - z)) != 0) (x != (y - (x - z)));
      rewrite2 (((x - y) + (z - y)) != 0) (z != (y + (y - x)));
      rewrite2 (((x*x) + (y - z)) != 0) (((x*x) + y) != z);
      rewrite2 (((min x y) + (x - z)) != 0) (((min x y) + x) != z);
      rewrite2 (((min x y) + (y - z)) != 0) (((min x y) + y) != z);
      rewrite2 (((min x y) + (z - x)) != 0) (z != (max 0 (x - y)));
      rewrite2 (((min x y) + (z - y)) != 0) (z != (max 0 (y - x)));
      rewrite2 (((max x y) + (x - z)) != 0) (((max x y) + x) != z);
      rewrite2 (((max x y) + (y - z)) != 0) (((max x y) + y) != z);
      rewrite2 (((max x y) + (z - x)) != 0) (z != (min 0 (x - y)));
      rewrite2 (((max x y) + (z - y)) != 0) (z != (min 0 (y - x)));
      rewrite2 (((select x y z) + (w - y)) != 0) (w != (select x 0 (y - z)));
      rewrite2 (((select x y z) + (w - z)) != 0) (w != (select x (z - y) 0));
      rewrite2 (((select x y z) + (y - w)) != 0) (((select x y z) + y) != w);
      rewrite2 (((select x y z) + (z - w)) != 0) (((select x y z) + z) != w)];
    rewrite2 ((y + (y - x)) != x) (y != x);
    rewrite2 ((y + (min x 0)) != x) ((max x 0) != y);
    rewrite2 ((y + (max x 0)) != x) ((min x 0) != y);
    rewrite2 ((z + (x - y)) != x) (z != y);
    rewrite2 (((x - y) + z) != x) (z != y);
    rewrite2 (((y - x) + y) != x) (x != y);
    rewrite2 (((min x 0) + y) != x) ((max x 0) != y);
    rewrite2 (((max x 0) + y) != x) ((min x 0) != y);
    when b_ IRNodeType.Sub [
      rewrite2 ((y + x) != (x - z)) ((y + z) != 0);
      rewrite2 ((y + x) != (y - z)) ((z + x) != 0)];
    when b_ IRNodeType.Mul [
      rewrite2 ((x + y) != (y*2)) (x != y);
      rewrite2 ((y + x) != (y*2)) (x != y)];
    when b_ IRNodeType.Select [
      rewrite2 ((y + x) != (select z x y)) ((select z y x) != 0);
      rewrite2 ((y + x) != (select z y x)) ((select z x y) != 0)]];
  when a_ IRNodeType.Sub [
    rewrite2 (((y + x) - z) != x) (y != z);
    rewrite2 (((y + x) - z) != y) (x != z);
    rewrite2 (((x - y) - z) != x) ((y + z) != 0);
    rewrite2 (((y - x) - x) != x) (y != (3*x));
    when b_ IRNodeType.Add [
      rewrite2 ((x - y) != (x + z)) ((z + y) != 0);
      rewrite2 ((x - y) != (z + x)) ((z + y) != 0)]];
  when a_ IRNodeType.Mul [
    rewrite3 ((x*x) != c0) const_true (c0 <= -1)];
  when a_ IRNodeType.Div [
    rewrite3 ((x/c0) != x) (x != 0) (c0 <= -1)];
  when a_ IRNodeType.Min [
    rewrite2 ((min z (min y x)) != x) ((min z y) < x);
    rewrite2 ((min z (min y x)) != y) ((min z x) < y);
    rewrite2 ((min (min y x) z) != x) ((min y z) < x);
    rewrite2 ((min (min y x) z) != y) ((min x z) < y);
    when b_ IRNodeType.Max [
      rewrite2 ((min y x) != (max x y)) (x != y);
      rewrite2 ((min y x) != (max y x)) (x != y)]];
  when a_ IRNodeType.Max [
    rewrite2 ((max z (max y x)) != x) (x < (max y z));
    rewrite2 ((max z (max y x)) != y) (y < (max z x));
    rewrite2 ((max (max y x) z) != x) (x < (max y z));
    rewrite2 ((max (max y x) z) != y) (y < (max x z));
    when b_ IRNodeType.Min [
      rewrite2 ((max y x) != (min x y)) (x != y);
      rewrite2 ((max y x) != (min y x)) (y != x)]];
  when a_ IRNodeType.Select [
    when b_ IRNodeType.IntImm [
      rewrite2 ((select x y (y - z)) != 0) ((select x 0 z) != y);
      rewrite2 ((select x y (z - y)) != 0) (y != (select x 0 z));
      rewrite2 ((select x (y - z) y) != 0) ((select x z 0) != y);
      rewrite2 ((select x (y - z) z) != 0) ((select x y 0) != z);
      rewrite2 ((select x (y - z) (z - w)) != 0) ((select x y w) != z)];
    rewrite2 ((select x 0 (y - z)) != y) ((select x y z) != 0);
    rewrite3 ((select x y (z*c0)) != z) (z != (select x y 0)) ((2 <= c0) || (c0 <= -1));
    rewrite2 ((select x (y - z) 0) != y) ((select x z y) != 0);
    rewrite3 ((select x (y*c0) z) != y) (y != (select x 0 z)) ((2 <= c0) || (c0 <= -1));
    rewrite2 ((select y z (x + z)) != x) (z != (select y x 0));
    rewrite2 ((select y z (z + x)) != x) ((select y x 0) != z);
    rewrite2 ((select y z (x - z)) != x) ((select y x 0) != z);
    rewrite2 ((select y (x + z) z) != x) ((select y 0 x) != z);
    rewrite2 ((select y (z + x) z) != x) ((select y 0 x) != z);
    rewrite2 ((select y (x - z) z) != x) ((select y 0 x) != z);
    when b_ IRNodeType.Add [
      rewrite2 ((select x y z) != (y + z)) ((select x z y) != 0);
      rewrite2 ((select x y z) != (z + y)) ((select x z y) != 0)]]
].

(** A rule with the tests it stands behind, outermost first. *)
Record Guarded : Set := mkGuarded {
  guards : list (Side * IRNodeType.t);
  before : IRNode;
  after : IRNode;
  condition : option IRNode
}.

Fixpoint flatten (tests : list (Side * IRNodeType.t)) (c : Clause) : list Guarded :=
  match c with
  | rewrite2 l r => [mkGuarded tests l r None]
  | rewrite3 l r p => [mkGuarded tests l r (Some p)]
  | when s k alternatives =>
      (fix go (cs : list Clause) : list Guarded :=
         match cs with
         | [] => []
         | c :: cs' => flatten (tests ++ [(s, k)]) c ++ go cs'
         end) alternatives
  end.

(** The rules of the table in the order in which they are tried. *)
Definition rules : list Guarded :=
  foldr (λ c acc, flatten [] c ++ acc) [] clauses.

(** The operand of a [!=] pattern a test looks at. *)
Definition operand (s : Side) (pattern : IRNode) : option IRNode :=
  match pattern with
  | Bin OpNE l r => Some (match s with a_ => l | b_ => r end)
  | _ => None
  end.

(** The pattern itself passes the test. *)
Definition guard_holds (pattern : IRNode) (g : Side * IRNodeType.t) : bool :=
  match operand g.1 pattern with
  | Some e => Nat.eqb (node_type e) (IRNodeType.rank g.2)
  | None => false
  end.

(** The rule as the filter would read it; a rule without a predicate holds
    always. *)
Definition as_rule (g : Guarded) : Rule :=
  let p := default const_true (condition g) in
  mkRule (before g) (after g) p (mkExpr 1 (Call "rewrite" [before g; after g; p])).

(** The checks the properties of the table are decided with. *)
Definition explicit (g : Guarded) : bool :=
  negb (implicit (as_rule g))
  && match condition g with
     | Some p => bool_decide (find_vars p ⊆ find_vars (before g))
     | None => true
     end.

Definition filed_right (g : Guarded) : bool :=
  match before g with Bin OpNE _ _ => true | _ => false end
  && forallb (guard_holds (before g)) (guards g).

Definition shrinks (g : Guarded) : bool :=
  bool_decide (leaf_count (after g) < leaf_count (before g))
  && bool_decide (var_occurrences (after g) ⊆+ var_occurrences (before g)).

End Simplify_NE.

(** ** Conversions of the delegate ([apps/hannk/delegate/hannk_delegate.cpp]) *)

Module hannk.

(** The enumerators of [TfLiteFusedActivation] that the delegate names. *)
Inductive TfLiteFusedActivation : Set :=
| kTfLiteActNone | kTfLiteActRelu | kTfLiteActReluN1To1 | kTfLiteActRelu6
| kTfLiteActTanh | kTfLiteActSignBit | kTfLiteActSigmoid.

Module ActivationFunction.
Inductive t : Set := None | Relu | ReluN1To1 | Relu6 | Tanh | SignBit.
End ActivationFunction.

(** [ConvertTfLiteActivation] (source lines 130-148); [CHECK(0)] stops the
    program with its message. *)
Definition ConvertTfLiteActivation (a : TfLiteFusedActivation)
  : interpret_nn.Checked ActivationFunction.t :=
  match a with
  | kTfLiteActNone => interpret_nn.Done ActivationFunction.None
  | kTfLiteActRelu => interpret_nn.Done ActivationFunction.Relu
  | kTfLiteActReluN1To1 => interpret_nn.Done ActivationFunction.ReluN1To1
  | kTfLiteActRelu6 => interpret_nn.Done ActivationFunction.Relu6
  | kTfLiteActTanh => interpret_nn.Done ActivationFunction.Tanh
  | kTfLiteActSignBit => interpret_nn.Done ActivationFunction.SignBit
  | kTfLiteActSigmoid => interpret_nn.Fatal "Unknown TfLiteFusedActivation"
  end.

Definition TfLiteFusedActivation_eqb (a b : TfLiteFusedActivation) : bool :=
  match a, b with
  | kTfLiteActNone, kTfLiteActNone | kTfLiteActRelu, kTfLiteActRelu
  | kTfLiteActReluN1To1, kTfLiteActReluN1To1 | kTfLiteActRelu6, kTfLiteActRelu6
  | kTfLiteActTanh, kTfLiteActTanh | kTfLiteActSignBit, kTfLiteActSignBit
  | kTfLiteActSigmoid, kTfLiteActSigmoid => true
  | _, _ => false
  end.

(** [IsActivationReluOrNone] (source lines 696-701). *)
Definition IsActivationReluOrNone (activation : TfLiteFusedActivation) : bool :=
  TfLiteFusedActivation_eqb activation kTfLiteActRelu
  || TfLiteFusedActivation_eqb activation kTfLiteActRelu6
  || TfLiteFusedActivation_eqb activation kTfLiteActReluN1To1
  || TfLiteFusedActivation_eqb activation kTfLiteActNone.

(** [ConvertTfLiteShape] (source lines 161-170) on the dimensions of the
    tensor: element [i] of the result is element [shape_size - 1 - i] of
    the dimensions. *)
Definition ConvertTfLiteShape (dims : list Z) : list Z :=
  let shape_size := length dims in
  foldl (λ shape i, shape ++ [dims !!! (shape_size - 1 - i)%nat]) []
    (seq 0 shape_size).

(** The axis of [BuildConcatenation] (source lines 526-533), from the rank
    of the output tensor and [params->axis]; both are [int]s. *)
Definition BuildConcatenation_axis (rank : Z) (params_axis : Z) : Z :=
  let axis := params_axis in
  let axis := if bool_decide (axis < 0) then wrap_int (rank + axis) else axis in
  wrap_int (rank - axis - 1).

End hannk.

(** * Properties *)

(** *** The comparison is a strict total order whose ties are equalities *)

Lemma compare_expr_Call n1 l1 n2 l2 :
  compare_expr (Call n1 l1) (Call n2 l2) =
  lex (String.compare n1 n2) (compare_expr_vector l1 l2).
Proof.
  reflexivity.
Qed.

Lemma string_compare_refl s : String.compare s s = Eq.
Proof. by apply String_as_OT.cmp_eq. Qed.

Lemma string_compare_trans s1 s2 s3 :
  String.compare s1 s2 = Lt → String.compare s2 s3 = Lt → String.compare s1 s3 = Lt.
Proof.
  intros H1 H2. apply String_as_OT.cmp_lt.
  eapply String_as_OT.lt_trans; by apply String_as_OT.cmp_lt.
Qed.

Lemma binop_rank_inj o1 o2 : binop_rank o1 = binop_rank o2 → o1 = o2.
Proof. destruct o1, o2; simpl; intros H; try reflexivity; discriminate H. Qed.

Lemma lex_Eq c1 c2 : lex c1 c2 = Eq ↔ c1 = Eq ∧ c2 = Eq.
Proof. destruct c1; simpl; intuition congruence. Qed.

Lemma lex_CompOpp c1 c2 : CompOpp (lex c1 c2) = lex (CompOpp c1) (CompOpp c2).
Proof. by destruct c1. Qed.

Lemma lex_Lt_trans c12 c23 c13 d12 d23 d13 :
  (c12 = Lt → c23 = Lt → c13 = Lt) →
  (c12 = Eq → c13 = c23) →
  (c23 = Eq → c13 = c12) →
  (d12 = Lt → d23 = Lt → d13 = Lt) →
  lex c12 d12 = Lt → lex c23 d23 = Lt → lex c13 d13 = Lt.
Proof.
  intros Hc He1 He2 Hd.
  destruct c12, c23; simpl; intros H1 H2; try discriminate.
  - rewrite (He1 eq_refl). simpl. auto.
  - by rewrite (He1 eq_refl).
  - by rewrite (He2 eq_refl).
  - by rewrite (Hc eq_refl eq_refl).
Qed.

Lemma compare_expr_eq x : ∀ y, compare_expr x y = Eq → x = y.
Proof.
  induction x as [v|n|op a b IHa IHb|a IHa|c t f IHc IHt IHf|n args IH]
    using IRNode_ind'; intros y; destruct y;
    try (simpl; discriminate);
    try (match goal with o : BinOp |- _ => destruct o end; simpl; discriminate).
  - simpl. intros H. f_equal. by apply Z.compare_eq.
  - simpl. intros H. f_equal. by apply String.compare_eq_iff.
  - simpl. intros H. apply lex_Eq in H as [Hr H]. apply lex_Eq in H as [H1 H2].
    apply Nat.compare_eq in Hr. apply binop_rank_inj in Hr.
    f_equal; auto.
  - simpl. intros H. f_equal. auto.
  - simpl. intros H. apply lex_Eq in H as [H1 H]. apply lex_Eq in H as [H2 H3].
    f_equal; auto.
  - rewrite compare_expr_Call. intros H. apply lex_Eq in H as [Hn H].
    apply String.compare_eq_iff in Hn. subst. f_equal.
    revert args0 H. induction IH as [|a l Ha _ IHl]; intros [|a2 l2]; simpl;
      try discriminate; try reflexivity.
    intros H. apply lex_Eq in H as [H1 H2]. f_equal; auto.
Qed.

Lemma compare_expr_refl x : compare_expr x x = Eq.
Proof.
  induction x as [v|n|op a b IHa IHb|a IHa|c t f IHc IHt IHf|n args IH]
    using IRNode_ind'.
  - simpl. apply Z.compare_refl.
  - simpl. apply string_compare_refl.
  - simpl. by rewrite Nat.compare_refl, IHa, IHb.
  - simpl. done.
  - simpl. by rewrite IHc, IHt, IHf.
  - rewrite compare_expr_Call, string_compare_refl. simpl.
    induction IH as [|a l Ha _ IHl]; simpl; [done|]. by rewrite Ha.
Qed.

Lemma compare_expr_Eq_iff x y : compare_expr x y = Eq ↔ x = y.
Proof. split; [apply compare_expr_eq | intros ->; apply compare_expr_refl]. Qed.

Lemma compare_expr_antisym x : ∀ y, compare_expr y x = CompOpp (compare_expr x y).
Proof.
  induction x as [v|n|op a b IHa IHb|a IHa|c t f IHc IHt IHf|n args IH]
    using IRNode_ind'; intros y; destruct y;
    try reflexivity;
    try (match goal with o : BinOp |- _ => destruct o end; reflexivity).
  - simpl. apply Z.compare_antisym.
  - simpl. apply String.compare_antisym.
  - simpl. rewrite !lex_CompOpp, <- IHa, <- IHb. by rewrite Nat.compare_antisym.
  - simpl. apply IHa.
  - simpl. by rewrite !lex_CompOpp, <- IHc, <- IHt, <- IHf.
  - rewrite !compare_expr_Call, lex_CompOpp, <- String.compare_antisym. f_equal.
    revert args0. induction IH as [|a l Ha _ IHl]; intros [|a2 l2]; simpl;
      try reflexivity.
    by rewrite lex_CompOpp, <- Ha, <- IHl.
Qed.

Lemma compare_expr_Eq_l x y z : compare_expr x y = Eq → compare_expr x z = compare_expr y z.
Proof. by intros ->%compare_expr_eq. Qed.

Lemma compare_expr_Eq_r x y z : compare_expr y z = Eq → compare_expr x z = compare_expr x y.
Proof. by intros ->%compare_expr_eq. Qed.

Lemma nat_compare_Eq_l (a b c : nat) : (a ?= b)%nat = Eq → (a ?= c)%nat = (b ?= c)%nat.
Proof. by intros ->%Nat.compare_eq. Qed.

Lemma nat_compare_Eq_r (a b c : nat) : (b ?= c)%nat = Eq → (a ?= c)%nat = (a ?= b)%nat.
Proof. by intros ->%Nat.compare_eq. Qed.

Lemma nat_compare_Lt_trans (a b c : nat) :
  (a ?= b)%nat = Lt → (b ?= c)%nat = Lt → (a ?= c)%nat = Lt.
Proof. rewrite !Nat.compare_lt_iff. lia. Qed.

Lemma compare_expr_unfold x y :
  compare_expr x y = lex (Nat.compare (node_type x) (node_type y)) (compare_children x y).
Proof. destruct x, y; reflexivity. Qed.

Lemma string_compare_Eq_l a b c :
  String.compare a b = Eq → String.compare a c = String.compare b c.
Proof. by intros ->%String.compare_eq_iff. Qed.

Lemma string_compare_Eq_r a b c :
  String.compare b c = Eq → String.compare a c = String.compare a b.
Proof. by intros ->%String.compare_eq_iff. Qed.

Lemma compare_expr_trans x :
  ∀ y z, compare_expr x y = Lt → compare_expr y z = Lt → compare_expr x z = Lt.
Proof.
  induction x as [v|n|op a b IHa IHb|a IHa|c t f IHc IHt IHf|n args IH]
    using IRNode_ind'; intros y z; rewrite !compare_expr_unfold;
    (eapply lex_Lt_trans;
     [apply nat_compare_Lt_trans | apply nat_compare_Eq_l | apply nat_compare_Eq_r |]);
    destruct y as [v2|n2|op2 a2 b2|a2|c2 t2 f2|n2 args2];
    destruct z as [v3|n3|op3 a3 b3|a3|c3 t3 f3|n3 args3];
    simpl; try discriminate.
  - rewrite !Z.compare_lt_iff. lia.
  - apply string_compare_trans.
  - eapply lex_Lt_trans;
      eauto using compare_expr_Eq_l, compare_expr_Eq_r.
  - apply IHa.
  - eapply lex_Lt_trans;
      [apply IHc | apply compare_expr_Eq_l | apply compare_expr_Eq_r |].
    eapply lex_Lt_trans; eauto using compare_expr_Eq_l, compare_expr_Eq_r.
  - eapply lex_Lt_trans;
      [apply string_compare_trans | apply string_compare_Eq_l
      | apply string_compare_Eq_r |].
    clear n n2 n3. revert args2 args3.
    induction IH as [|a l Ha _ IHl]; intros [|a2 l2] [|a3 l3]; simpl;
      try discriminate; try reflexivity.
    eapply lex_Lt_trans; eauto using compare_expr_Eq_l, compare_expr_Eq_r.
Qed.

Lemma compare_expr_Gt_Lt x y : compare_expr x y = Gt ↔ compare_expr y x = Lt.
Proof.
  rewrite (compare_expr_antisym y x).
  destruct (compare_expr y x); simpl; intuition congruence.
Qed.

Lemma expr_lt_spec a b : expr_lt a b ↔ compare_expr (node a) (node b) = Lt.
Proof.
  unfold expr_lt, IRDeepCompare.
  destruct (compare_expr (node a) (node b)); intuition congruence.
Qed.

Lemma equal_spec a b : equal a b = true ↔ node a = node b.
Proof.
  unfold equal. rewrite <- compare_expr_Eq_iff.
  destruct (compare_expr (node a) (node b)); intuition congruence.
Qed.

Lemma expr_lt_irrefl a b : expr_lt a b → node a ≠ node b.
Proof.
  rewrite expr_lt_spec. intros H E. rewrite E, compare_expr_refl in H. discriminate.
Qed.

Lemma expr_lt_trans a b c : expr_lt a b → expr_lt b c → expr_lt a c.
Proof. rewrite !expr_lt_spec. apply compare_expr_trans. Qed.

Lemma expr_lt_asym a b : expr_lt a b → expr_lt b a → False.
Proof.
  intros H1 H2. by apply (expr_lt_irrefl a a); [eapply expr_lt_trans|].
Qed.

Lemma expr_trichotomy a b : expr_lt a b ∨ node a = node b ∨ expr_lt b a.
Proof.
  destruct (compare_expr (node a) (node b)) eqn:E.
  - right; left. by apply compare_expr_eq.
  - left. by apply expr_lt_spec.
  - right; right. apply expr_lt_spec. by apply compare_expr_Gt_Lt.
Qed.

Global Instance expr_lt_transitive : Transitive expr_lt.
Proof. intros a b c. apply expr_lt_trans. Qed.

(** ** The leaf counter computes the leaf count *)

Ltac int_bounds :=
  unfold in_int, wrap_int, INT_MAX in *;
  change (2 ^ 31) with 2147483648 in *;
  change (2 ^ 32) with 4294967296 in *.

Lemma wrap_int_in_int z : in_int (wrap_int z).
Proof.
  int_bounds.
  pose proof (Z.mod_pos_bound (z + 2147483648) 4294967296). lia.
Qed.

Lemma wrap_int_id z : in_int z → wrap_int z = z.
Proof.
  intros Hz. int_bounds.
  rewrite Z.mod_small; lia.
Qed.

Lemma wrap_int_add_l a b : wrap_int (wrap_int a + b) = wrap_int (a + b).
Proof.
  unfold wrap_int. f_equal.
  replace ((a + 2 ^ 31) `mod` 2 ^ 32 - 2 ^ 31 + b + 2 ^ 31)
    with ((a + 2 ^ 31) `mod` 2 ^ 32 + b) by lia.
  rewrite Zplus_mod_idemp_l. f_equal. lia.
Qed.

Lemma leaf_count_nonneg e : 0 ≤ leaf_count e.
Proof.
  induction e as [v|n|op a b IHa IHb|a IHa|c t f IHc IHt IHf|n args IH]
    using IRNode_ind'; simpl; try lia.
  induction IH as [|a l Ha _ IHl]; simpl; lia.
Qed.

Lemma CountLeaves_accept_in_int e : ∀ count, in_int count → in_int (CountLeaves_accept e count).
Proof.
  induction e as [v|n|op a b IHa IHb|a IHa|c t f IHc IHt IHf|n args IH]
    using IRNode_ind'; intros count Hc; simpl; auto using wrap_int_in_int.
  revert count Hc. induction IH as [|a l Ha _ IHl]; simpl; auto.
Qed.

Lemma CountLeaves_accept_spec e :
  ∀ count, in_int count → CountLeaves_accept e count = wrap_int (count + leaf_count e).
Proof.
  induction e as [v|n|op a b IHa IHb|a IHa|c t f IHc IHt IHf|n args IH]
    using IRNode_ind'; intros count Hc; simpl; try reflexivity.
  - rewrite IHb by by apply CountLeaves_accept_in_int.
    rewrite IHa by done. rewrite wrap_int_add_l. f_equal. lia.
  - by apply IHa.
  - rewrite IHf by by do 2 apply CountLeaves_accept_in_int.
    rewrite IHt by by apply CountLeaves_accept_in_int.
    rewrite IHc by done.
    rewrite wrap_int_add_l, <- Z.add_assoc, wrap_int_add_l. f_equal. lia.
  - revert count Hc. induction IH as [|a l Ha _ IHl]; intros count Hc; simpl.
    + rewrite Z.add_0_r. by rewrite wrap_int_id.
    + rewrite IHl by by apply CountLeaves_accept_in_int.
      rewrite Ha by done. rewrite wrap_int_add_l. f_equal. lia.
Qed.

(** ** Variables used and variables found *)

Lemma expr_uses_var_find_vars e v : expr_uses_var e v = true ↔ v ∈ find_vars e.
Proof.
  induction e as [w|n|op a b IHa IHb|a IHa|c t f IHc IHt IHf|n args IH]
    using IRNode_ind'; simpl.
  - set_solver.
  - rewrite bool_decide_eq_true. set_solver.
  - by rewrite orb_true_iff, elem_of_union, IHa, IHb.
  - done.
  - by rewrite !orb_true_iff, !elem_of_union, IHc, IHt, IHf.
  - induction IH as [|a l Ha _ IHl]; simpl.
    + set_solver.
    + by rewrite orb_true_iff, elem_of_union, Ha, IHl.
Qed.

(** ** The set stays strictly increasing *)

Lemma not_lt_equiv a b :
  IRDeepCompare a b = false → IRDeepCompare b a = false → node a = node b.
Proof.
  intros H1 H2. destruct (expr_trichotomy a b) as [H|[H|H]]; [|done|];
    unfold expr_lt in H; congruence.
Qed.

Lemma set_insert_elem e s x : x ∈ set_insert e s → x = e ∨ x ∈ s.
Proof.
  induction s as [|y s IH]; simpl.
  - intros ->%list_elem_of_singleton. by left.
  - destruct (IRDeepCompare e y); [|destruct (IRDeepCompare y e)];
      rewrite !elem_of_cons; intuition.
Qed.

Lemma set_insert_keeps e s x : x ∈ s → x ∈ set_insert e s.
Proof.
  induction s as [|y s IH]; simpl; [by intros ?%elem_of_nil|].
  destruct (IRDeepCompare e y); [|destruct (IRDeepCompare y e)];
    rewrite !elem_of_cons; intuition.
Qed.

Lemma set_insert_holds e s : ∃ x, x ∈ set_insert e s ∧ node x = node e.
Proof.
  induction s as [|y s IH]; simpl.
  - exists e. split; [by apply list_elem_of_singleton|done].
  - destruct (IRDeepCompare e y) eqn:E1; [|destruct (IRDeepCompare y e) eqn:E2].
    + exists e. split; [by left|done].
    + destruct IH as (x & Hx & Hn). exists x. split; [by right|done].
    + exists y. split; [by left|]. symmetry. by apply not_lt_equiv.
Qed.

Lemma HdRel_set_insert x e s :
  expr_lt x e → HdRel expr_lt x s → HdRel expr_lt x (set_insert e s).
Proof.
  intros Hxe Hs. destruct s as [|y s]; simpl; [by constructor|].
  inversion_clear Hs.
  destruct (IRDeepCompare e y); [|destruct (IRDeepCompare y e)]; by constructor.
Qed.

Lemma set_insert_Sorted e s : Sorted expr_lt s → Sorted expr_lt (set_insert e s).
Proof.
  induction 1 as [|y s Hs IH Hy]; simpl; [by repeat constructor|].
  destruct (IRDeepCompare e y) eqn:E1; [|destruct (IRDeepCompare y e) eqn:E2].
  - repeat constructor; done.
  - constructor; [done|]. by apply HdRel_set_insert.
  - by constructor.
Qed.

Lemma set_insert_range_Sorted v : ∀ s,
  Sorted expr_lt s → Sorted expr_lt (set_insert_range v s).
Proof.
  unfold set_insert_range.
  induction v as [|e v IH]; intros s Hs; simpl; [done|].
  by apply IH, set_insert_Sorted.
Qed.

Lemma set_insert_range_elem v : ∀ s x, x ∈ set_insert_range v s → x ∈ v ∨ x ∈ s.
Proof.
  unfold set_insert_range.
  induction v as [|e v IH]; intros s x; simpl; [by right|].
  intros [Hx|Hx]%IH; [left; by right|].
  apply set_insert_elem in Hx as [->|Hx]; [left; by left|by right].
Qed.

Lemma set_insert_range_keeps v : ∀ s x, x ∈ s → x ∈ set_insert_range v s.
Proof.
  unfold set_insert_range.
  induction v as [|e v IH]; intros s x Hx; simpl; [done|].
  by apply IH, set_insert_keeps.
Qed.

Lemma set_insert_range_holds v : ∀ s e,
  e ∈ v → ∃ x, x ∈ set_insert_range v s ∧ node x = node e.
Proof.
  induction v as [|e' v IH]; intros s e; [by intros ?%elem_of_nil|].
  intros [->|He]%elem_of_cons.
  - destruct (set_insert_holds e' s) as (x & Hx & Hn).
    exists x. split; [|done]. by apply (set_insert_range_keeps v).
  - by apply (IH (set_insert e' s)).
Qed.

Lemma set_StronglySorted v : StronglySorted expr_lt (set_insert_range v []).
Proof. apply Sorted_StronglySorted; [apply _|]. apply set_insert_range_Sorted. constructor. Qed.

(** In a strictly increasing list an element is determined by its tree. *)
Lemma StronglySorted_node_inj s a b :
  StronglySorted expr_lt s → a ∈ s → b ∈ s → node a = node b → a = b.
Proof.
  induction 1 as [|y s Hs IH Hy]; [by intros ?%elem_of_nil|].
  rewrite Forall_forall in Hy.
  intros [->|Ha]%elem_of_cons [->|Hb]%elem_of_cons Hn; auto.
  - by destruct (expr_lt_irrefl _ _ (Hy _ Hb)).
  - by destruct (expr_lt_irrefl _ _ (Hy _ Ha)).
Qed.

Lemma StronglySorted_node_lt s :
  StronglySorted expr_lt s → StronglySorted node_lt (node <$> s).
Proof.
  intros Hs. eapply StronglySorted_fmap; [|done].
  intros a b. by rewrite expr_lt_spec.
Qed.

Lemma node_lt_irrefl x : ¬ node_lt x x.
Proof. unfold node_lt. by rewrite compare_expr_refl. Qed.

Lemma node_lt_trans x y z : node_lt x y → node_lt y z → node_lt x z.
Proof. apply compare_expr_trans. Qed.

Lemma StronglySorted_node_lt_NoDup l : StronglySorted node_lt l → NoDup l.
Proof.
  induction 1 as [|y l Hl IH Hy]; constructor; [|done].
  rewrite Forall_forall in Hy. intros Hin. by apply (node_lt_irrefl y), Hy.
Qed.

(** Two sets built from the same trees, in whatever order and however often
    they were inserted, list the same trees in the same order. *)
Lemma set_nodes_unique v1 v2 :
  (∀ n, n ∈ node <$> v1 ↔ n ∈ node <$> v2) →
  node <$> set_insert_range v1 [] = node <$> set_insert_range v2 [].
Proof.
  intros Hv.
  pose proof (StronglySorted_node_lt _ (set_StronglySorted v1)) as H1.
  pose proof (StronglySorted_node_lt _ (set_StronglySorted v2)) as H2.
  apply (StronglySorted_unique_strong node_lt); [|done|done|].
  - intros x1 x2 _ _ H12 H21. destruct (node_lt_irrefl x1). by eapply node_lt_trans.
  - apply NoDup_Permutation; [by eapply StronglySorted_node_lt_NoDup..|].
    assert (∀ v n, n ∈ node <$> set_insert_range v [] ↔ n ∈ node <$> v) as Hset.
    { intros v n. rewrite !list_elem_of_fmap. split.
      - intros (x & -> & Hx). apply set_insert_range_elem in Hx as [Hx|Hx]; [eauto|].
        by apply elem_of_nil in Hx.
      - intros (e & -> & He). destruct (set_insert_range_holds v [] e He) as (x & Hx & Hn).
        eauto. }
    intros n. by rewrite !Hset.
Qed.

(** ** Building the rules *)

Lemma is_rewrite_rule_inv e :
  is_rewrite_rule e = true → ∃ a0 a1 a2, e = Call "rewrite" [a0; a1; a2].
Proof.
  destruct e as [| | | | |name [|a0 [|a1 [|a2 [|a3 args]]]]]; simpl; try discriminate.
  intros ->%bool_decide_eq_true. eauto.
Qed.

Lemma build_rules_ok exprs : ∀ acc,
  Forall (λ e, is_rewrite_rule (node e) = true) exprs →
  build_rules exprs acc = inr (acc ++ (rule_of <$> exprs)).
Proof.
  induction exprs as [|e exprs IH]; intros acc Hall; simpl.
  - by rewrite app_nil_r.
  - inversion_clear Hall as [|? ? He Hrest].
    unfold rule_of at 1.
    destruct (is_rewrite_rule_inv _ He) as (a0 & a1 & a2 & ->). simpl.
    rewrite IH by done. by rewrite <- app_assoc.
Qed.

Lemma build_rules_bad exprs : ∀ acc,
  Exists (λ e, is_rewrite_rule (node e) = false) exprs →
  ∃ d t, build_rules exprs acc = inl (d, t) ∧ nonzero_status t.
Proof.
  induction exprs as [|e exprs IH]; intros acc Hex; [by inversion Hex|].
  simpl. destruct (is_rewrite_rule (node e)) eqn:He.
  - destruct (is_rewrite_rule_inv _ He) as (a0 & a1 & a2 & ->). simpl.
    apply IH. inversion Hex; [congruence|done].
  - destruct (node e) as [| | | | |name args]; try (by eexists _, _).
    destruct (bool_decide (name ≠ "rewrite")) eqn:Hn; [by eexists _, _|].
    destruct args as [|a0 [|a1 [|a2 [|a3 args]]]]; try (by eexists _, _).
    simpl in He. apply bool_decide_eq_false in He, Hn. by destruct Hn.
Qed.

Lemma build_rules_inr exprs acc rules :
  build_rules exprs acc = inr rules →
  Forall (λ e, is_rewrite_rule (node e) = true) exprs ∧
  rules = acc ++ (rule_of <$> exprs).
Proof.
  intros Hb.
  destruct (decide (Forall (λ e, is_rewrite_rule (node e) = true) exprs)) as [Hall|Hn].
  - split; [done|]. rewrite build_rules_ok in Hb by done. congruence.
  - apply not_Forall_Exists in Hn; [|apply _].
    destruct (build_rules_bad exprs acc) as (d & t & Hd & _).
    + eapply Exists_impl; [done|]. simpl. intros e. by destruct (is_rewrite_rule (node e)).
    + congruence.
Qed.

Lemma orig_rule_of e : orig (rule_of e) = e.
Proof.
  unfold rule_of. by destruct (node e).
Qed.

Lemma orig_rule_of_list (exprs : list Expr) : orig <$> (rule_of <$> exprs) = exprs.
Proof.
  induction exprs as [|e exprs IH]; csimpl; [done|].
  by rewrite orig_rule_of, IH.
Qed.

Section Loops.
Context `{Collaborators}.

(** ** The two loops over the rules *)

Lemma resynthesize_orig r : orig (resynthesize r) = orig r.
Proof.
  unfold resynthesize. by destruct (synthesize_predicate _ _ _ _).
Qed.

Lemma resynthesize_all_fst (rules : list Rule) :
  (resynthesize_all rules).1 = resynthesize <$> rules.
Proof.
  induction rules as [|r rules IH]; simpl; [done|].
  destruct (resynthesize_all rules). simpl in *. by rewrite IH.
Qed.

Lemma resynthesize_all_snd (rules : list Rule) :
  (resynthesize_all rules).2 = (λ r, Resynthesizing (orig r)) <$> rules.
Proof.
  induction rules as [|r rules IH]; simpl; [done|].
  destruct (resynthesize_all rules). simpl in *. by rewrite IH.
Qed.

Lemma resynthesize_orig_list (rules : list Rule) :
  orig <$> (resynthesize <$> rules) = orig <$> rules.
Proof.
  induction rules as [|r rules IH]; csimpl; [done|].
  by rewrite resynthesize_orig, IH.
Qed.

(** On a strictly increasing list the duplicate check never fires. *)
Lemma classify_loop_no_skip rules rs : ∀ last,
  StronglySorted expr_lt (orig <$> rs) →
  (∀ l, last = Some l → Forall (expr_lt l) (orig <$> rs)) →
  classify_loop rules last rs = classify rules <$> rs.
Proof.
  induction rs as [|r rs IH]; intros last Hs Hlast; simpl; [done|].
  inversion_clear Hs as [|? ? Hs' Hr].
  assert (match last with Some l => equal (orig r) l | None => false end = false)
    as ->.
  { destruct last as [l|]; [|done].
    specialize (Hlast l eq_refl). inversion_clear Hlast as [|? ? Hlt _].
    apply not_true_is_false. intros Heq%equal_spec.
    by apply (expr_lt_irrefl _ _ Hlt). }
  f_equal. apply IH; [done|]. by intros l [= <-].
Qed.

Lemma run_unfold exprs_vec :
  run exprs_vec =
  match build_rules (set_insert_range exprs_vec []) [] with
  | inl (d, t) => mkOutcome [] [d] t
  | inr rules =>
      mkOutcome
        (((λ r, Resynthesizing (orig r)) <$> rules)
           ++ classify_loop (resynthesize <$> rules) None (resynthesize <$> rules))
        [] (Return 0)
  end.
Proof.
  unfold run. destruct (build_rules _ _) as [[d t]|rules]; [done|].
  pose proof (resynthesize_all_fst rules) as H1.
  pose proof (resynthesize_all_snd rules) as H2.
  destruct (resynthesize_all rules) as [rs lines]. simpl in *. by subst.
Qed.

End Loops.

(** ** The local filters *)

Lemma is_zero_true e : is_zero e = true ↔ e = IntImm 0.
Proof.
  destruct e; simpl; try (split; [discriminate|congruence]).
  rewrite bool_decide_eq_true. split; congruence.
Qed.

Lemma is_zero_false e : is_zero e = false ↔ e ≠ IntImm 0.
Proof. rewrite <- is_zero_true. by destruct (is_zero e). Qed.

Section Filters.
Context `{Collaborators}.

Lemma implicit_true r :
  implicit r = true ↔ ∃ v, v ∈ find_vars (rhs r) ∧ v ∉ find_vars (lhs r).
Proof.
  unfold implicit. rewrite existsb_exists. split.
  - intros (v & Hv%list_elem_of_In%elem_of_elements & Hn). exists v. split; [done|].
    rewrite <- expr_uses_var_find_vars. by destruct (expr_uses_var (lhs r) v).
  - intros (v & Hv & Hn). exists v. split.
    + by apply list_elem_of_In, elem_of_elements.
    + rewrite <- expr_uses_var_find_vars in Hn. by destruct (expr_uses_var (lhs r) v).
Qed.

Lemma implicit_false r :
  implicit r = false ↔ ∀ v, v ∈ find_vars (rhs r) → v ∈ find_vars (lhs r).
Proof.
  split.
  - intros Hi v Hv. destruct (decide (v ∈ find_vars (lhs r))) as [|Hn]; [done|].
    assert (implicit r = true) by (apply implicit_true; eauto). congruence.
  - intros Hall. apply not_true_is_false. intros (v & Hv & Hn)%implicit_true.
    by apply Hn, Hall.
Qed.

(** Within the range of [int] the counter ends at the difference of the
    two leaf counts. *)
Lemma leaf_balance_spec l s :
  leaf_count l ≤ INT_MAX → leaf_count s ≤ INT_MAX →
  leaf_balance l s = leaf_count s - leaf_count l.
Proof.
  intros Hl Hs.
  pose proof (leaf_count_nonneg l) as Hl0. pose proof (leaf_count_nonneg s) as Hs0.
  unfold leaf_balance.
  assert (in_int 0) as Hz by (int_bounds; lia).
  rewrite (CountLeaves_accept_spec l 0 Hz), Z.add_0_l.
  rewrite (wrap_int_id (leaf_count l)) by (int_bounds; lia).
  rewrite (wrap_int_id (- leaf_count l)) by (int_bounds; lia).
  rewrite CountLeaves_accept_spec by (int_bounds; lia).
  rewrite wrap_int_id by (int_bounds; lia). lia.
Qed.

(** C4: after re-synthesis a rule is written off as "False predicate"
    exactly when its predicate is syntactically the constant false; the
    test comes first in the loop body, so no later filter (implicit rule,
    simplifiable left-hand side, domination) gets to report such a rule,
    whatever it would have said. *)
Theorem false_predicate_filter (rules : list Rule) (r : Rule) :
  classify rules r = FalsePredicate (orig r) ↔ predicate r = IntImm 0.
Proof.
  rewrite <- is_zero_true. unfold classify.
  destruct (is_zero (predicate r)); [done|].
  split; [|discriminate].
  destruct (implicit r); [discriminate|].
  destruct (bool_decide _); [discriminate|].
  destruct (find_dominating rules r); discriminate.
Qed.

(** C5: a rule whose predicate is not the constant false is written off as
    "Implicit rule" exactly when some variable free in its right-hand side
    is not free in its left-hand side; so a rule with left-hand side [y]
    and right-hand side [x] is an implicit rule. *)
Theorem implicit_rule_filter (rules : list Rule) (r : Rule) :
  predicate r ≠ IntImm 0 →
  (classify rules r = ImplicitRule (orig r)
   ↔ ∃ v, v ∈ find_vars (rhs r) ∧ v ∉ find_vars (lhs r))
  ∧ (lhs r = Var "y" → rhs r = Var "x" → classify rules r = ImplicitRule (orig r)).
Proof.
  intros Hp%is_zero_false.
  assert (classify rules r = ImplicitRule (orig r)
          ↔ ∃ v, v ∈ find_vars (rhs r) ∧ v ∉ find_vars (lhs r)) as Hiff.
  { rewrite <- implicit_true. unfold classify. rewrite Hp.
    destruct (implicit r); [done|]. split; [|discriminate].
    destruct (bool_decide _); [discriminate|].
    destruct (find_dominating rules r); discriminate. }
  split; [done|].
  intros Hl Hr. apply Hiff. exists "x". rewrite Hl, Hr. simpl.
  split; [by apply elem_of_singleton|]. by intros [=]%elem_of_singleton.
Qed.

(** C2: a rule that gets to the comparison with the baseline simplifier
    (its predicate is not false, it is not implicit) is written off as
    "Simplifiable LHS" exactly when the simplified left-hand side has
    strictly fewer leaves than the left-hand side, a leaf being an
    occurrence of a constant or of a variable (wildcards included) and
    operators not being counted; the counts are those of an [int]. So the
    rule [x - x -> 0] is simplifiable once the simplifier reduces [x - x]
    to [0]. *)
Theorem simplifiable_lhs_filter (rules : list Rule) (r : Rule) :
  predicate r ≠ IntImm 0 →
  (∀ v, v ∈ find_vars (rhs r) → v ∈ find_vars (lhs r)) →
  leaf_count (lhs r) ≤ INT_MAX →
  leaf_count (simplify (lhs r)) ≤ INT_MAX →
  (classify rules r = SimplifiableLHS (lhs r) (simplify (lhs r))
   ↔ leaf_count (simplify (lhs r)) < leaf_count (lhs r))
  ∧ (lhs r = Sub (Var "x") (Var "x") → simplify (lhs r) = IntImm 0 →
     classify rules r = SimplifiableLHS (Sub (Var "x") (Var "x")) (IntImm 0)).
Proof.
  intros Hp%is_zero_false Hi%implicit_false Hl Hs.
  assert (classify rules r = SimplifiableLHS (lhs r) (simplify (lhs r))
          ↔ leaf_count (simplify (lhs r)) < leaf_count (lhs r)) as Hiff.
  { unfold classify. rewrite Hp, Hi, leaf_balance_spec by done.
    case_bool_decide as Hlt.
    - split; [lia|done].
    - split; [|lia]. destruct (find_dominating rules r); discriminate. }
  split; [done|].
  intros El Es. rewrite <- El at 1. rewrite <- Es. apply Hiff.
  rewrite Es, El. simpl. lia.
Qed.

(** C9: re-synthesis puts the synthesizer's predicate in place of the
    rule's predicate, substitutes the binding the synthesizer returned
    into the left-hand and right-hand sides, and leaves [orig] as it was,
    address and tree; this holds for every rule of the list the loop goes
    over. *)
Theorem resynthesis_frame (rules : list Rule) :
  Forall2
    (λ r r',
       let synthesized := synthesize_predicate (lhs r) (rhs r) [] ∅ in
       predicate r' = synthesized.1
       ∧ lhs r' = substitute synthesized.2 (lhs r)
       ∧ rhs r' = substitute synthesized.2 (rhs r)
       ∧ orig r' = orig r
       ∧ addr (orig r') = addr (orig r) ∧ node (orig r') = node (orig r))
    rules (resynthesize_all rules).1.
Proof.
  rewrite resynthesize_all_fst.
  induction rules as [|r rules IH]; csimpl; constructor; [|done].
  unfold resynthesize. simpl.
  by destruct (synthesize_predicate (lhs r) (rhs r) [] ∅).
Qed.

End Filters.

(** ** The classification loop and the whole run *)

Lemma StronglySorted_lookup_lt (s : list Expr) i j a b :
  StronglySorted expr_lt s → s !! i = Some a → s !! j = Some b → (i < j)%nat →
  expr_lt a b.
Proof.
  intros Hs. revert i j. induction Hs as [|y s Hs IH Hy]; intros i j Ha Hb Hij.
  - by rewrite lookup_nil in Ha.
  - destruct j as [|j]; [lia|]. simpl in Hb. destruct i as [|i].
    + injection Ha as ->. rewrite Forall_forall in Hy.
      apply Hy. by eapply list_elem_of_lookup_2.
    + simpl in Ha. apply (IH i j); [done..|lia].
Qed.

Section Run.
Context `{Collaborators}.

Lemma classify_loop_elem rules rs l : ∀ last,
  l ∈ classify_loop rules last rs → ∃ r, r ∈ rs ∧ l = classify rules r.
Proof.
  induction rs as [|r rs IH]; intros last; simpl; [by intros ?%elem_of_nil|].
  destruct (match last with Some l0 => equal (orig r) l0 | None => false end).
  - intros (r' & Hr' & ->)%IH. exists r'. split; [by right|done].
  - intros [->|(r' & Hr' & ->)%IH]%elem_of_cons.
    + exists r. split; [by left|done].
    + exists r'. split; [by right|done].
Qed.

Lemma find_dominating_Some rules r r2 :
  find_dominating rules r = Some r2 →
  r2 ∈ rules ∧ same_as (orig r) (orig r2) = false ∧ dominated_by r r2 = true.
Proof.
  unfold find_dominating. intros [Hin Hf]%find_some.
  apply andb_true_iff in Hf as [Hs Hd]. apply negb_true_iff in Hs.
  split; [by apply list_elem_of_In|done].
Qed.

Lemma find_dominating_None rules r r2 :
  find_dominating rules r = None → r2 ∈ rules →
  same_as (orig r) (orig r2) = false → dominated_by r r2 = false.
Proof.
  unfold find_dominating. intros Hnone Hin%list_elem_of_In Hs.
  pose proof (find_none _ _ Hnone _ Hin) as Hf. simpl in Hf.
  rewrite Hs in Hf. done.
Qed.

Lemma classify_TooSpecific rules r o o2 :
  classify rules r = TooSpecific o o2 →
  o = orig r ∧ ∃ r2, find_dominating rules r = Some r2 ∧ o2 = orig r2.
Proof.
  unfold classify.
  destruct (is_zero (predicate r)); [discriminate|].
  destruct (implicit r); [discriminate|].
  destruct (bool_decide _); [discriminate|].
  destruct (find_dominating rules r) as [r2|]; [|discriminate].
  intros [= <- <-]. eauto.
Qed.

(** The rules the run classifies: built from the set, then re-synthesized;
    their origins are the elements of the set, in its order. *)
Lemma run_rules exprs_vec rules :
  build_rules (set_insert_range exprs_vec []) [] = inr rules →
  orig <$> (resynthesize <$> rules) = set_insert_range exprs_vec [] ∧
  cout (run exprs_vec) =
    ((λ r, Resynthesizing (orig r)) <$> rules)
      ++ (classify (resynthesize <$> rules) <$> (resynthesize <$> rules)).
Proof.
  intros Hb. rewrite run_unfold, Hb. simpl.
  apply build_rules_inr in Hb as [_ ->]. simpl.
  assert (orig <$> (resynthesize <$> (rule_of <$> set_insert_range exprs_vec []))
          = set_insert_range exprs_vec []) as Ho.
  { by rewrite resynthesize_orig_list, orig_rule_of_list. }
  split; [done|]. f_equal.
  apply classify_loop_no_skip; [|done].
  rewrite Ho. apply set_StronglySorted.
Qed.

(** C6: no line "Too specific" names a rule as dominated by itself: the
    domination loop steps over the candidate whose origin is the very
    same reference, so the two origins of such a line never share an
    address, and in a run they are not even structurally equal. *)
Theorem no_self_domination (exprs_vec : list Expr) (i : nat) (o o2 : Expr) :
  cout (run exprs_vec) !! i = Some (TooSpecific o o2) →
  same_as o o2 = false ∧ equal o o2 = false
  ∧ (∀ rules r, classify rules r ≠ TooSpecific (orig r) (orig r))
  ∧ (∀ rules r r2, find_dominating rules r = Some r2 →
       same_as (orig r) (orig r2) = false).
Proof.
  intros Hi.
  assert (∀ rules r o o2, classify rules r = TooSpecific o o2 →
            same_as o o2 = false ∧ o = orig r ∧ ∃ r2, r2 ∈ rules ∧ o2 = orig r2)
    as Hstep.
  { intros rules r o' o2' (-> & r2 & Hf & ->)%classify_TooSpecific.
    apply find_dominating_Some in Hf as (Hin & Hs & _). eauto. }
  assert (∀ rules r, classify rules r ≠ TooSpecific (orig r) (orig r)) as Hself.
  { intros rules r Hc. apply Hstep in Hc as [Hs _].
    unfold same_as in Hs. by rewrite bool_decide_eq_false in Hs. }
  apply list_elem_of_lookup_2 in Hi. rewrite run_unfold in Hi.
  destruct (build_rules _ _) as [[d t]|rules] eqn:Hb;
    [by apply elem_of_nil in Hi|]. simpl in Hi.
  apply elem_of_app in Hi as [Hi|Hi];
    [by apply list_elem_of_fmap in Hi as (? & [=] & _)|].
  apply classify_loop_elem in Hi as (r & Hr & Hc). symmetry in Hc.
  apply Hstep in Hc as (Hs & -> & r2 & Hr2 & ->).
  split_and!; [done| |done|].
  2: { intros rules' r' r2' Hf. by apply find_dominating_Some in Hf as (_ & ? & _). }
  apply not_true_is_false. intros Heq%equal_spec.
  destruct (run_rules _ _ Hb) as [Ho _].
  assert (orig r = orig r2) as Hsame.
  { apply (StronglySorted_node_inj (set_insert_range exprs_vec []));
      [apply set_StronglySorted| | |done]; rewrite <- Ho;
      apply list_elem_of_fmap; eauto. }
  unfold same_as in Hs. rewrite Hsame in Hs.
  by rewrite bool_decide_eq_false in Hs.
Qed.

(** C8: when some parsed top-level term is not a call to [rewrite] with
    exactly three arguments, the run writes a diagnostic to the error
    stream and ends with a nonzero status, and nothing at all has been
    written to the output stream: no rule is classified. *)
Theorem malformed_input_is_fatal (argv : list string) (path : string)
    (i : nat) (e : Expr) :
  argv !! 1%nat = Some path →
  parse_halide_exprs_from_file path !! i = Some e →
  is_rewrite_rule (node e) = false →
  cout (main argv) = [] ∧ cerr (main argv) ≠ [] ∧ nonzero_status (status (main argv)).
Proof.
  intros Hargv He Hbad. unfold main.
  assert (2 ≤ length argv)%nat as Hlen.
  { apply lookup_lt_Some in Hargv. lia. }
  rewrite bool_decide_eq_false_2 by lia. rewrite Hargv. simpl.
  set (exprs_vec := parse_halide_exprs_from_file path) in *.
  destruct (set_insert_range_holds exprs_vec [] e) as (x & Hx & Hn);
    [by eapply list_elem_of_lookup_2|].
  destruct (build_rules_bad (set_insert_range exprs_vec []) []) as (d & t & Hb & Ht).
  { apply Exists_exists. exists x. split; [done|]. by rewrite Hn. }
  rewrite run_unfold, Hb. simpl. done.
Qed.

(** C10: the set hands the driver its elements in strictly increasing
    structural order, so the rules built from it have pairwise
    structurally different origins, before and after re-synthesis, and the
    duplicate check of the classification loop lets every rule through:
    the loop writes one line for each rule of the list. *)
Theorem set_rules_strictly_increasing (exprs_vec : list Expr) (rules : list Rule) :
  build_rules (set_insert_range exprs_vec []) [] = inr rules →
  StronglySorted expr_lt (orig <$> rules)
  ∧ (∀ i j r1 r2, rules !! i = Some r1 → rules !! j = Some r2 → i ≠ j →
       equal (orig r1) (orig r2) = false)
  ∧ (let rules' := (resynthesize_all rules).1 in
     orig <$> rules' = orig <$> rules
     ∧ classify_loop rules' None rules' = classify rules' <$> rules').
Proof.
  intros Hb. pose proof (build_rules_inr _ _ _ Hb) as [_ Hr]. simpl in Hr.
  assert (StronglySorted expr_lt (orig <$> rules)) as Hs.
  { rewrite Hr, orig_rule_of_list. apply set_StronglySorted. }
  split_and!; [done| |].
  - intros i j r1 r2 H1 H2 Hij.
    assert ((orig <$> rules) !! i = Some (orig r1)) as H1' by by rewrite list_lookup_fmap, H1.
    assert ((orig <$> rules) !! j = Some (orig r2)) as H2' by by rewrite list_lookup_fmap, H2.
    apply not_true_is_false. intros Heq%equal_spec.
    destruct (decide (i < j)%nat).
    + by apply (expr_lt_irrefl _ _ (StronglySorted_lookup_lt _ i j _ _ Hs H1' H2' ltac:(lia))).
    + by apply (expr_lt_irrefl _ _ (StronglySorted_lookup_lt _ j i _ _ Hs H2' H1' ltac:(lia))).
  - simpl. rewrite resynthesize_all_fst, resynthesize_orig_list. split; [done|].
    apply classify_loop_no_skip; [|done]. by rewrite resynthesize_orig_list.
Qed.

End Run.

(** ** Lines per rule, and the domination loop *)

Section Verdicts.
Context `{Collaborators}.

Lemma classify_verdict_of rules r : verdict_of r (classify rules r).
Proof.
  unfold classify.
  destruct (is_zero (predicate r)); [done|].
  destruct (implicit r); [done|].
  destruct (bool_decide _); [done|].
  by destruct (find_dominating rules r).
Qed.

Lemma dominated_by_true r r2 :
  dominated_by r r2 = true ↔
  ∃ b, more_general_than (lhs r2) (lhs r) ∅ = (true, b)
       ∧ can_prove (Or (predicate r2) (substitute b (Not (predicate r)))) = true.
Proof.
  unfold dominated_by.
  destruct (more_general_than (lhs r2) (lhs r) ∅) as [[] b]; simpl.
  - split; [eauto|]. by intros (b' & [= <-] & Hp).
  - split; [done|]. by intros (b' & [=] & _).
Qed.

Lemma classify_reaches rules r :
  reaches_domination r = true →
  classify rules r =
    match find_dominating rules r with
    | Some r2 => TooSpecific (orig r) (orig r2)
    | None => GoodRule (lhs r) (rhs r) (predicate r)
    end.
Proof.
  unfold reaches_domination, classify.
  intros [[Hz%negb_true_iff Hi%negb_true_iff]%andb_true_iff Hb%negb_true_iff]%andb_true_iff.
  by rewrite Hz, Hi, Hb.
Qed.

(** C7, as the driver does it: every rule gets two lines, not one. A
    first pass over the rules writes "Re-synthesizing predicate for" for
    each of them; only then a second pass writes, for each rule, exactly
    one of the five verdicts (false predicate, implicit rule, simplifiable
    left-hand side, too specific, good rule). Each pass goes through the
    rules in the strictly increasing structural order of the set. *)
Theorem two_lines_per_rule (exprs_vec : list Expr) (rules : list Rule) :
  build_rules (set_insert_range exprs_vec []) [] = inr rules →
  let rules' := resynthesize <$> rules in
  cout (run exprs_vec) =
    ((λ r, Resynthesizing (orig r)) <$> rules) ++ (classify rules' <$> rules')
  ∧ Forall (λ r, verdict_of r (classify rules' r)) rules'
  ∧ orig <$> rules = set_insert_range exprs_vec []
  ∧ orig <$> rules' = set_insert_range exprs_vec []
  ∧ StronglySorted expr_lt (set_insert_range exprs_vec [])
  ∧ length (cout (run exprs_vec)) = (2 * length rules)%nat.
Proof.
  intros Hb rules'. destruct (run_rules _ _ Hb) as [Ho Hc].
  split_and!; [done| |by rewrite <- Ho, resynthesize_orig_list|done| |].
  - apply Forall_forall. intros r _. apply classify_verdict_of.
  - apply set_StronglySorted.
  - rewrite Hc, length_app, !length_fmap. lia.
Qed.

(** C1, as the driver does it: a rule [r] that gets to the domination loop
    is written off as "Too specific" exactly when the rule list holds a
    rule [r2] -- any rule of the list, also one that an earlier filter
    wrote off itself -- whose origin is another reference, whose
    left-hand side is more general than that of [r] with some binding
    [b], and for which the prover proves
    [r2.predicate || substitute(b, !r.predicate)]; the line then names
    such a rule. If the prover returns false on that formula for every
    such [r2], [r] is kept as a good rule. *)
Theorem domination_filter (rules : list Rule) (r : Rule) :
  reaches_domination r = true →
  ((∃ o2, classify rules r = TooSpecific (orig r) o2) ↔
   ∃ r2 b, r2 ∈ rules ∧ same_as (orig r) (orig r2) = false
     ∧ more_general_than (lhs r2) (lhs r) ∅ = (true, b)
     ∧ can_prove (Or (predicate r2) (substitute b (Not (predicate r)))) = true)
  ∧ (∀ o2, classify rules r = TooSpecific (orig r) o2 →
     ∃ r2 b, o2 = orig r2 ∧ r2 ∈ rules ∧ same_as (orig r) (orig r2) = false
       ∧ more_general_than (lhs r2) (lhs r) ∅ = (true, b)
       ∧ can_prove (Or (predicate r2) (substitute b (Not (predicate r)))) = true)
  ∧ ((∀ r2 b, r2 ∈ rules → same_as (orig r) (orig r2) = false →
        more_general_than (lhs r2) (lhs r) ∅ = (true, b) →
        can_prove (Or (predicate r2) (substitute b (Not (predicate r)))) = false) →
     classify rules r = GoodRule (lhs r) (rhs r) (predicate r)).
Proof.
  intros Hr. rewrite (classify_reaches rules r Hr).
  destruct (find_dominating rules r) as [r2|] eqn:Hf.
  - apply find_dominating_Some in Hf as (Hin & Hs & (b & Hm & Hp)%dominated_by_true).
    split_and!.
    + split; [intros _; by exists r2, b | eauto].
    + intros o2 [= <-]. by exists r2, b.
    + intros Hnone. specialize (Hnone r2 b Hin Hs Hm). congruence.
  - split_and!; [|done..].
    split; [by intros [? [=]]|].
    intros (r2 & b & Hin & Hs & Hm & Hp).
    pose proof (find_dominating_None _ _ _ Hf Hin Hs) as Hd.
    assert (dominated_by r r2 = true) by (apply dominated_by_true; eauto).
    congruence.
Qed.

End Verdicts.

(** ** The output depends on the trees only *)

Lemma heap_ok_spec l :
  heap_ok l = true → ∀ a b, a ∈ l → b ∈ l → addr a = addr b → node a = node b.
Proof.
  unfold heap_ok. rewrite forallb_forall.
  intros Hl a b Ha%list_elem_of_In Hb%list_elem_of_In Hab.
  specialize (Hl a Ha). rewrite forallb_forall in Hl. specialize (Hl b Hb).
  unfold same_as in Hl. rewrite bool_decide_eq_true_2 in Hl by done.
  by apply equal_spec.
Qed.

(** Among the elements of the set, being the same reference and being
    structurally equal come to the same. *)
Lemma set_identity exprs_vec a b :
  heap_ok exprs_vec = true →
  a ∈ set_insert_range exprs_vec [] → b ∈ set_insert_range exprs_vec [] →
  same_as a b = equal a b.
Proof.
  intros Hheap Ha Hb.
  assert (∀ x, x ∈ set_insert_range exprs_vec [] → x ∈ exprs_vec) as Hsub.
  { intros x [Hx|Hx%elem_of_nil]%set_insert_range_elem; done. }
  unfold same_as. case_bool_decide as Haddr.
  - symmetry. apply equal_spec. eapply heap_ok_spec; eauto.
  - symmetry. apply not_true_is_false. intros Hn%equal_spec. apply Haddr.
    f_equal. eapply StronglySorted_node_inj; eauto using set_StronglySorted.
Qed.

Lemma find_sim (f f' : Rule → bool) rs rs' :
  Forall2 rule_sim rs rs' →
  (∀ a a', a ∈ rs → a' ∈ rs' → rule_sim a a' → f a = f' a') →
  match List.find f rs, List.find f' rs' with
  | Some a, Some a' => rule_sim a a'
  | None, None => True
  | _, _ => False
  end.
Proof.
  induction 1 as [|a a' rs rs' Ha Hrs IH]; intros Hf; simpl; [done|].
  rewrite <- (Hf a a') by (done || by left).
  destruct (f a); [done|].
  apply IH. intros b b' Hb Hb'. apply Hf; by right.
Qed.

Section Determinism.
Context `{Collaborators}.

Lemma text_ext (l1 : list Line) : ∀ l2, show <$> l1 = show <$> l2 → text l1 = text l2.
Proof.
  induction l1 as [|a l1 IH]; intros [|b l2]; csimpl; try done.
  intros [= Hab Hl]. by rewrite Hab, (IH l2).
Qed.

Lemma build_rules_sim s1 : ∀ s2 acc1 acc2,
  node <$> s1 = node <$> s2 → Forall2 rule_sim acc1 acc2 →
  match build_rules s1 acc1, build_rules s2 acc2 with
  | inl (d1, t1), inl (d2, t2) => show_diag d1 = show_diag d2 ∧ t1 = t2
  | inr r1, inr r2 => Forall2 rule_sim r1 r2
  | _, _ => False
  end.
Proof.
  induction s1 as [|e1 s1 IH]; intros [|e2 s2] acc1 acc2; csimpl; try done.
  intros [= Hn Hs] Hacc. rewrite <- Hn.
  destruct (node e1) as [| | | | |name args] eqn:He1; simpl; try by rewrite He1, Hn.
  destruct (bool_decide (name ≠ "rewrite")); [simpl; by rewrite He1, Hn|].
  destruct args as [|a0 [|a1 [|a2 [|a3 args]]]]; try done.
  apply IH; [done|]. apply Forall2_app; [done|].
  constructor; [|constructor]. unfold rule_sim. simpl. by rewrite He1, Hn.
Qed.

Lemma resynthesize_sim r r' : rule_sim r r' → rule_sim (resynthesize r) (resynthesize r').
Proof.
  intros (Hl & Hr & Hp & Ho). unfold resynthesize, rule_sim. rewrite <- Hl, <- Hr.
  by destruct (synthesize_predicate (lhs r) (rhs r) [] ∅).
Qed.

Lemma dominated_by_sim r r' r2 r2' :
  rule_sim r r' → rule_sim r2 r2' → dominated_by r r2 = dominated_by r' r2'.
Proof.
  intros (Hl & _ & Hp & _) (Hl2 & _ & Hp2 & _).
  unfold dominated_by. by rewrite Hl, Hp, Hl2, Hp2.
Qed.

Lemma classify_sim rs rs' r r' :
  Forall2 rule_sim rs rs' →
  (∀ a b, a ∈ rs → b ∈ rs → same_as (orig a) (orig b) = equal (orig a) (orig b)) →
  (∀ a b, a ∈ rs' → b ∈ rs' → same_as (orig a) (orig b) = equal (orig a) (orig b)) →
  r ∈ rs → r' ∈ rs' → rule_sim r r' →
  show (classify rs r) = show (classify rs' r').
Proof.
  intros Hrs Hid Hid' Hr Hr' Hsim.
  pose proof Hsim as (Hl & Hrh & Hp & Ho).
  unfold classify, implicit. rewrite <- Hl, <- Hrh, <- Hp.
  destruct (is_zero (predicate r)); [simpl; by rewrite Ho|].
  destruct (existsb _ _); [simpl; by rewrite Ho|].
  destruct (bool_decide _); [done|].
  unfold find_dominating.
  pose proof (find_sim
    (λ r2, negb (same_as (orig r) (orig r2)) && dominated_by r r2)
    (λ r2, negb (same_as (orig r') (orig r2)) && dominated_by r' r2)
    rs rs' Hrs) as Hfind.
  assert (∀ a a', a ∈ rs → a' ∈ rs' → rule_sim a a' →
            negb (same_as (orig r) (orig a)) && dominated_by r a
            = negb (same_as (orig r') (orig a')) && dominated_by r' a') as Hagree.
  { intros a a' Ha Ha' Haa. rewrite (dominated_by_sim r r' a a') by done.
    rewrite Hid, Hid' by done. unfold equal.
    destruct Haa as (_ & _ & _ & Hoa). by rewrite Ho, Hoa. }
  specialize (Hfind Hagree).
  destruct (List.find _ rs) as [r2|], (List.find _ rs') as [r2'|]; try done.
  destruct Hfind as (_ & _ & _ & Ho2). simpl. by rewrite Ho, Ho2.
Qed.

Lemma Forall2_fmap_eq {B} (g g' : Rule → B) l l' :
  Forall2 rule_sim l l' →
  (∀ a a', a ∈ l → a' ∈ l' → rule_sim a a' → g a = g' a') →
  g <$> l = g' <$> l'.
Proof.
  induction 1 as [|a a' l l' Ha Hl IH]; intros Hg; csimpl; [done|].
  f_equal; [apply Hg; (done || by left)|].
  apply IH. intros b b' Hb Hb'. apply Hg; by right.
Qed.

(** C3: two rule files that hold the same top-level terms, each as often
    as in the other but in another order, give the same characters on the
    output stream (and on the error stream, and the same status): the set
    lists the same trees in the same strictly increasing order, one per
    structure, and nothing the driver writes depends on anything but the
    trees. An address is assumed to hold one node. *)
Theorem run_deterministic (vec1 vec2 : list Expr) :
  heap_ok vec1 = true → heap_ok vec2 = true →
  node <$> vec1 ≡ₚ node <$> vec2 →
  text (cout (run vec1)) = text (cout (run vec2))
  ∧ text_diag (cerr (run vec1)) = text_diag (cerr (run vec2))
  ∧ status (run vec1) = status (run vec2)
  ∧ node <$> set_insert_range vec1 [] = node <$> set_insert_range vec2 []
  ∧ StronglySorted node_lt (node <$> set_insert_range vec1 []).
Proof.
  intros Hheap1 Hheap2 Hperm.
  assert (node <$> set_insert_range vec1 [] = node <$> set_insert_range vec2 [])
    as Hset.
  { apply set_nodes_unique. intros n. by rewrite Hperm. }
  assert (StronglySorted node_lt (node <$> set_insert_range vec1 [])) as Hsorted.
  { apply StronglySorted_node_lt, set_StronglySorted. }
  cut (text (cout (run vec1)) = text (cout (run vec2))
       ∧ text_diag (cerr (run vec1)) = text_diag (cerr (run vec2))
       ∧ status (run vec1) = status (run vec2)).
  { intros (Ht & Hd & Hst). by split_and!. }
  pose proof (build_rules_sim _ _ [] [] Hset (List.Forall2_nil _)) as Hb.
  destruct (build_rules (set_insert_range vec1 []) []) as [[d1 t1]|rules1] eqn:Hb1;
    destruct (build_rules (set_insert_range vec2 []) []) as [[d2 t2]|rules2] eqn:Hb2;
    try done.
  - rewrite !run_unfold, Hb1, Hb2. simpl. destruct Hb as [-> ->]. done.
  - destruct (run_rules _ _ Hb1) as [Ho1 ->]. destruct (run_rules _ _ Hb2) as [Ho2 ->].
    rewrite !run_unfold, Hb1, Hb2. simpl. split; [|done].
    assert (Forall2 rule_sim (resynthesize <$> rules1) (resynthesize <$> rules2))
      as Hrs.
    { apply Forall2_fmap. eapply Forall2_impl; [done|]. apply resynthesize_sim. }
    set (rs1 := resynthesize <$> rules1) in *.
    set (rs2 := resynthesize <$> rules2) in *.
    apply text_ext. rewrite !fmap_app, <- !list_fmap_compose. f_equal.
    + apply (Forall2_fmap_eq _ _ _ _ Hb). intros a a' _ _ (_ & _ & _ & Ho).
      simpl. by rewrite Ho.
    + apply (Forall2_fmap_eq _ _ _ _ Hrs). intros a a' Ha Ha' Haa. simpl.
      apply classify_sim; try done.
      * intros x y Hx Hy. apply (set_identity vec1); [done|..];
          rewrite <- Ho1; by apply list_elem_of_fmap_2.
      * intros x y Hx Hy. apply (set_identity vec2); [done|..];
          rewrite <- Ho2; by apply list_elem_of_fmap_2.
Qed.

End Determinism.

(** * Worked examples *)

#[local] Existing Instance Sample.collaborators.

Lemma shadowed_rules_eq :
  Sample.shadowed_rules = [Sample.general_rule; Sample.specific_rule].
Proof. vm_compute. reflexivity. Qed.

(** The rule [y -> x] with predicate true is an implicit rule. *)
Lemma implicit_rule_filter_witness :
  predicate Sample.implicit_rule ≠ IntImm 0
  ∧ classify [Sample.implicit_rule] Sample.implicit_rule
    = ImplicitRule (orig Sample.implicit_rule).
Proof.
  assert (predicate Sample.implicit_rule ≠ IntImm 0) as Hp by discriminate.
  split; [exact Hp|].
  exact (proj2 (implicit_rule_filter [Sample.implicit_rule] Sample.implicit_rule Hp)
           eq_refl eq_refl).
Defined.

(** The rule [x - x -> 0] is simplifiable for a simplifier that knows
    [x - x = 0]. *)
Lemma simplifiable_lhs_filter_witness :
  leaf_count (lhs Sample.general_rule) ≤ INT_MAX
  ∧ leaf_count (simplify (lhs Sample.general_rule)) < leaf_count (lhs Sample.general_rule)
  ∧ classify [Sample.general_rule] Sample.general_rule
    = SimplifiableLHS (Sub (Var "x") (Var "x")) (IntImm 0).
Proof.
  assert (predicate Sample.general_rule ≠ IntImm 0) as Hp by discriminate.
  assert (∀ v, v ∈ find_vars (rhs Sample.general_rule)
               → v ∈ find_vars (lhs Sample.general_rule)) as Hv.
  { simpl. intros v Hv. by apply elem_of_empty in Hv. }
  assert (leaf_count (lhs Sample.general_rule) ≤ INT_MAX) as Hl by (by vm_compute).
  assert (leaf_count (simplify (lhs Sample.general_rule)) ≤ INT_MAX) as Hs
    by (by vm_compute).
  split; [exact Hl|]. split; [by vm_compute|].
  exact (proj2 (simplifiable_lhs_filter [Sample.general_rule] Sample.general_rule
                  Hp Hv Hl Hs) eq_refl eq_refl).
Defined.

(** In the run on [shadowed] the fourth line is a "Too specific" line; its
    two origins are different references to different trees. *)
Lemma no_self_domination_witness :
  cout (run (Sample.load Sample.shadowed)) !! 3%nat
    = Some (TooSpecific Sample.specific_origin Sample.general_origin)
  ∧ same_as Sample.specific_origin Sample.general_origin = false
  ∧ equal Sample.specific_origin Sample.general_origin = false.
Proof.
  assert (cout (run (Sample.load Sample.shadowed)) !! 3%nat
          = Some (TooSpecific Sample.specific_origin Sample.general_origin)) as Hi
    by (vm_compute; reflexivity).
  split; [exact Hi|].
  destruct (no_self_domination (Sample.load Sample.shadowed) 3
              Sample.specific_origin Sample.general_origin Hi) as (Hs & He & _ & _).
  exact (conj Hs He).
Defined.

(** A file whose second term is [rewrite(y, x)], a call with two arguments:
    the run stops at the assertion with nothing on the output stream. *)
Lemma malformed_input_is_fatal_witness :
  let argv := ["filter_rewrite_rules"; "malformed.txt"] in
  is_rewrite_rule (Call "rewrite" [Var "y"; Var "x"]) = false
  ∧ cout (main argv) = [] ∧ cerr (main argv) ≠ []
  ∧ nonzero_status (status (main argv)).
Proof.
  intros argv. split; [reflexivity|].
  apply (malformed_input_is_fatal argv "malformed.txt" 1
           (mkExpr 2 (Call "rewrite" [Var "y"; Var "x"]))).
  - reflexivity.
  - vm_compute. reflexivity.
  - reflexivity.
Defined.

(** A file that lists one of its two rules twice: the set keeps two, in
    increasing order, and the loop writes a line for both. *)
Lemma set_rules_strictly_increasing_witness :
  let exprs_vec := Sample.load Sample.shadowed_reordered in
  let rules := rule_of <$> set_insert_range exprs_vec [] in
  length exprs_vec = 3%nat ∧ length rules = 2%nat
  ∧ StronglySorted expr_lt (orig <$> rules)
  ∧ classify_loop (resynthesize_all rules).1 None (resynthesize_all rules).1
    = classify (resynthesize_all rules).1 <$> (resynthesize_all rules).1.
Proof.
  intros exprs_vec rules.
  assert (build_rules (set_insert_range exprs_vec []) [] = inr rules) as Hb
    by (vm_compute; reflexivity).
  destruct (set_rules_strictly_increasing exprs_vec rules Hb) as (Hs & _ & _ & Hl).
  split; [reflexivity|]. split; [reflexivity|]. exact (conj Hs Hl).
Defined.

(** One line per rule is not what happens: on a file with a single rule the
    run writes two lines. *)
Lemma one_line_per_rule_counterexample :
  let exprs_vec := Sample.load Sample.scenario_a in
  cout (run exprs_vec)
  = [Resynthesizing Sample.general_origin;
     SimplifiableLHS (Sub (Var "x") (Var "x")) (IntImm 0)]
  ∧ length (set_insert_range exprs_vec []) = 1%nat
  ∧ ¬ (length (cout (run exprs_vec)) = length (set_insert_range exprs_vec [])).
Proof. vm_compute. split_and!; [reflexivity..|discriminate]. Qed.

Lemma two_lines_per_rule_witness :
  let exprs_vec := Sample.load Sample.shadowed in
  let rules := rule_of <$> set_insert_range exprs_vec [] in
  build_rules (set_insert_range exprs_vec []) [] = inr rules
  ∧ length (cout (run exprs_vec)) = 4%nat
  ∧ cout (run exprs_vec) =
      ((λ r, Resynthesizing (orig r)) <$> rules)
        ++ (classify (resynthesize <$> rules) <$> (resynthesize <$> rules)).
Proof.
  intros exprs_vec rules.
  assert (build_rules (set_insert_range exprs_vec []) [] = inr rules) as Hb
    by (vm_compute; reflexivity).
  destruct (two_lines_per_rule exprs_vec rules Hb) as (Hc & _ & _ & _ & _ & Hlen).
  split; [exact Hb|]. split; [exact Hlen|exact Hc].
Defined.

(** The two rules of [shadowed]: [x - x -> 0] is written off as simplifiable,
    so it does not get to the domination loop itself, and still it is the
    rule that [(y*z) - (y*z) -> 0] is "too specific" against. No rule that
    passed the local filters dominates the second rule, yet it is not
    kept. *)
Lemma domination_counterexample :
  let rules := Sample.shadowed_rules in
  let r := Sample.specific_rule in
  r ∈ rules
  ∧ reaches_domination r = true
  ∧ classify rules Sample.general_rule
    = SimplifiableLHS (Sub (Var "x") (Var "x")) (IntImm 0)
  ∧ classify rules r = TooSpecific (orig r) (orig Sample.general_rule)
  ∧ ¬ ((∃ o2, classify rules r = TooSpecific (orig r) o2) ↔
       ∃ r2 b, r2 ∈ rules ∧ reaches_domination r2 = true
         ∧ same_as (orig r) (orig r2) = false
         ∧ more_general_than (lhs r2) (lhs r) ∅ = (true, b)
         ∧ can_prove (Or (predicate r2) (substitute b (Not (predicate r)))) = true)
  ∧ ¬ ((∀ r2 b, r2 ∈ rules → reaches_domination r2 = true →
          same_as (orig r) (orig r2) = false →
          more_general_than (lhs r2) (lhs r) ∅ = (true, b) →
          can_prove (Or (predicate r2) (substitute b (Not (predicate r)))) = false) →
       classify rules r = GoodRule (lhs r) (rhs r) (predicate r)).
Proof.
  intros rules r. unfold rules, r. rewrite shadowed_rules_eq.
  assert (∀ r2, r2 ∈ [Sample.general_rule; Sample.specific_rule] →
            reaches_domination r2 = true →
            same_as (orig Sample.specific_rule) (orig r2) = false → False) as Hnone.
  { intros r2 [->|[->|[]%elem_of_nil]%elem_of_cons]%elem_of_cons Hreach Hsame;
      vm_compute in Hreach, Hsame; discriminate. }
  split_and!.
  - right. left.
  - vm_compute. reflexivity.
  - vm_compute. reflexivity.
  - vm_compute. reflexivity.
  - intros [Hcited _].
    destruct Hcited as (r2 & b & Hin & Hreach & Hsame & _); [|by eapply Hnone].
    eexists. vm_compute. reflexivity.
  - intros Hkept.
    assert (classify [Sample.general_rule; Sample.specific_rule] Sample.specific_rule
            = GoodRule (lhs Sample.specific_rule) (rhs Sample.specific_rule)
                (predicate Sample.specific_rule)) as Hgood.
    { apply Hkept. intros r2 b Hin Hreach Hsame. by destruct (Hnone r2). }
    vm_compute in Hgood. discriminate.
Qed.

Lemma domination_filter_witness :
  reaches_domination Sample.specific_rule = true
  ∧ ∃ o2, classify Sample.shadowed_rules Sample.specific_rule
          = TooSpecific (orig Sample.specific_rule) o2.
Proof.
  assert (reaches_domination Sample.specific_rule = true) as Hr
    by (vm_compute; reflexivity).
  split; [exact Hr|].
  destruct (domination_filter Sample.shadowed_rules Sample.specific_rule Hr)
    as (Hiff & _ & _).
  apply Hiff. exists Sample.general_rule. eexists. split_and!.
  - rewrite shadowed_rules_eq. left.
  - reflexivity.
  - vm_compute. reflexivity.
  - vm_compute. reflexivity.
Defined.

(** The two rules of [shadowed] in the other order, at other addresses: the
    run writes the same characters. *)
Lemma run_deterministic_witness :
  let vec1 := Sample.load Sample.shadowed in
  let vec2 := Sample.load Sample.swapped in
  vec1 ≠ vec2 ∧ node <$> vec1 ≡ₚ node <$> vec2
  ∧ text (cout (run vec1)) = text (cout (run vec2)).
Proof.
  intros vec1 vec2.
  assert (heap_ok vec1 = true) as H1 by (vm_compute; reflexivity).
  assert (heap_ok vec2 = true) as H2 by (vm_compute; reflexivity).
  assert (node <$> vec1 ≡ₚ node <$> vec2) as Hp by apply perm_swap.
  split; [discriminate|]. split; [exact Hp|].
  exact (proj1 (run_deterministic vec1 vec2 H1 H2 Hp)).
Defined.

(** * Further properties of the driver *)

(** ** How a run ends *)

Lemma build_rules_inl exprs : ∀ acc d t,
  build_rules exprs acc = inl (d, t) →
  ∃ l1 e l2, exprs = l1 ++ e :: l2
    ∧ Forall (λ x, is_rewrite_rule (node x) = true) l1
    ∧ is_rewrite_rule (node e) = false
    ∧ ((d = NotARewriteRule e ∧ t = Return (-1)
        ∧ ∀ name args, node e = Call name args → name ≠ "rewrite")
       ∨ (∃ args text, d = ConditionFailed text ∧ t = Abort
          ∧ node e = Call "rewrite" args ∧ length args ≠ 3%nat)).
Proof.
  induction exprs as [|e exprs IH]; intros acc d t; simpl; [discriminate|].
  destruct (is_rewrite_rule (node e)) eqn:He.
  - destruct (is_rewrite_rule_inv _ He) as (a0 & a1 & a2 & Hn). rewrite Hn. simpl.
    intros (l1 & e' & l2 & -> & Hl1 & Hrest)%IH.
    exists (e :: l1), e', l2. split; [done|]. split; [by constructor|done].
  - intros Hb. exists [], e, exprs. split; [done|]. split; [constructor|].
    split; [done|].
    destruct (node e) as [| | | | |name args] eqn:Hn;
      try (injection Hb as <- <-; left; split_and!; [done..|intros ?? [=]]).
    case_bool_decide as Hname.
    + injection Hb as <- <-. left. split_and!; [done..|]. by intros ?? [= <- _].
    + subst name. right.
      unfold _halide_user_assert in Hb. case_bool_decide as Hlen.
      * by destruct args as [|a0 [|a1 [|a2 [|a3 args]]]].
      * injection Hb as <- <-. eauto 10.
Qed.

Lemma set_Forall_rewrite exprs_vec :
  Forall (λ x, is_rewrite_rule (node x) = true) (set_insert_range exprs_vec [])
  ↔ Forall (λ x, is_rewrite_rule (node x) = true) exprs_vec.
Proof.
  rewrite !Forall_forall. split.
  - intros Hset e He.
    destruct (set_insert_range_holds exprs_vec [] e He) as (x & Hx & Hn).
    rewrite <- Hn. by apply Hset.
  - intros Hvec x [Hx|Hx%elem_of_nil]%set_insert_range_elem; [by apply Hvec|done].
Qed.

Section Endings.
Context `{Collaborators}.

(** X1: the run ends with status 0 exactly when the program was started
    without a file argument or every parsed term is a call to [rewrite]
    with three arguments; and exactly then nothing is written to the error
    stream. *)
Theorem exit_status_zero_iff (argv : list string) :
  let well_formed :=
    (length argv < 2)%nat
    ∨ Forall (λ e, is_rewrite_rule (node e) = true)
        (parse_halide_exprs_from_file (default "" (argv !! 1%nat))) in
  (status (main argv) = Return 0 ↔ well_formed)
  ∧ (cerr (main argv) = [] ↔ well_formed).
Proof.
  simpl. unfold main. case_bool_decide as Hlen.
  - simpl. split; (split; [by left|done]).
  - set (exprs_vec := parse_halide_exprs_from_file _).
    rewrite run_unfold, <- set_Forall_rewrite.
    destruct (build_rules _ _) as [[d t]|rules] eqn:Hb; simpl.
    + apply build_rules_inl in Hb as (l1 & e & l2 & Hs & _ & He & Hd).
      assert (¬ Forall (λ x, is_rewrite_rule (node x) = true)
                (set_insert_range exprs_vec [])) as Hnot.
      { rewrite Hs, Forall_app, Forall_cons. intros (_ & He' & _). congruence. }
      split; (split; [|intros [?|?]; (lia || done)]).
      * intros ->. by destruct Hd as [(_ & [=] & _)|(? & ? & _ & [=] & _)].
      * discriminate.
    + apply build_rules_inr in Hb as [Hall _].
      split; (split; [by right|done]).
Qed.

(** X2: at most one diagnostic is written, and it is about the
    structurally least malformed term of the file: every parsed term that
    is structurally less is a call to [rewrite] with three arguments. A
    term that is not a call to [rewrite] gives status -1; a call to
    [rewrite] with another number of arguments stops the run at the
    assertion. *)
Theorem diagnostic_is_about_least_malformed (exprs_vec : list Expr) (i : nat)
    (d : Diag) :
  cerr (run exprs_vec) !! i = Some d →
  i = 0%nat ∧ cout (run exprs_vec) = []
  ∧ ∃ e, e ∈ exprs_vec
      ∧ (∀ e', e' ∈ exprs_vec → IRDeepCompare e' e = true →
           is_rewrite_rule (node e') = true)
      ∧ ((d = NotARewriteRule e ∧ status (run exprs_vec) = Return (-1)
          ∧ ∀ name args, node e = Call name args → name ≠ "rewrite")
         ∨ (∃ args text, d = ConditionFailed text ∧ status (run exprs_vec) = Abort
            ∧ node e = Call "rewrite" args ∧ length args ≠ 3%nat)).
Proof.
  rewrite run_unfold.
  destruct (build_rules _ _) as [[d' t]|rules] eqn:Hb; simpl;
    [|by rewrite lookup_nil].
  intros Hi. destruct i as [|i]; [|by rewrite lookup_cons, lookup_nil in Hi].
  injection Hi as ->. split; [done|]. split; [done|].
  apply build_rules_inl in Hb as (l1 & e & l2 & Hs & Hl1 & He & Hd).
  pose proof (set_StronglySorted exprs_vec) as Hsorted. rewrite Hs in Hsorted.
  exists e. split_and!; [| |done].
  - assert (e ∈ set_insert_range exprs_vec []) as Hin
      by (rewrite Hs; apply elem_of_app; right; by left).
    by apply set_insert_range_elem in Hin as [?|?%elem_of_nil].
  - intros e' He' Hlt.
    destruct (set_insert_range_holds exprs_vec [] e' He') as (x & Hx & Hn).
    rewrite <- Hn. rewrite Hs in Hx.
    assert (expr_lt x e) as Hxe.
    { apply expr_lt_spec. rewrite Hn. by apply expr_lt_spec. }
    apply StronglySorted_app in Hsorted as (_ & _ & Htail).
    apply StronglySorted_cons in Htail as [He_lt _].
    rewrite Forall_forall in Hl1.
    apply elem_of_app in Hx as [Hx|[->|Hx]%elem_of_cons]; [by apply Hl1| |].
    + by destruct (expr_lt_irrefl _ _ Hxe).
    + rewrite Forall_forall in He_lt. destruct (expr_lt_asym _ _ Hxe). by apply He_lt.
Qed.

End Endings.

(** ** What a verdict tells *)


Section Verdict_properties.
Context `{Collaborators}.


(** X3: a "Good rule" line shows the rule as re-synthesis left it, and the
    rule has passed every filter: its predicate is not the constant false,
    its right-hand side uses no variable the left-hand side does not have,
    the simplifier did not get the left-hand side to fewer leaves (counts
    within [int]), and for no rule of the list at another address, with a
    more general left-hand side, the prover proved the domination
    formula. *)
Theorem good_rule_passed_every_filter (rules : list Rule) (r : Rule)
    (l rh p : IRNode) :
  classify rules r = GoodRule l rh p →
  l = lhs r ∧ rh = rhs r ∧ p = predicate r
  ∧ predicate r ≠ IntImm 0
  ∧ find_vars (rhs r) ⊆ find_vars (lhs r)
  ∧ (leaf_count (lhs r) ≤ INT_MAX → leaf_count (simplify (lhs r)) ≤ INT_MAX →
     leaf_count (lhs r) ≤ leaf_count (simplify (lhs r)))
  ∧ (∀ r2 b, r2 ∈ rules → same_as (orig r) (orig r2) = false →
       more_general_than (lhs r2) (lhs r) ∅ = (true, b) →
       can_prove (Or (predicate r2) (substitute b (Not (predicate r)))) = false).
Proof.
  unfold classify.
  destruct (is_zero (predicate r)) eqn:Hz; [discriminate|].
  destruct (implicit r) eqn:Hi; [discriminate|].
  case_bool_decide as Hb; [discriminate|].
  destruct (find_dominating rules r) as [r2|] eqn:Hf; [discriminate|].
  intros [= <- <- <-]. split_and!; try done.
  - by apply is_zero_false.
  - intros v. by apply implicit_false.
  - intros Hl Hs. rewrite leaf_balance_spec in Hb by done. lia.
  - intros r2 b Hin Hs Hm.
    pose proof (find_dominating_None _ _ _ Hf Hin Hs) as Hd.
    unfold dominated_by in Hd. by rewrite Hm in Hd.
Qed.

(** X4: a "Too specific" line of a run names the structurally least rule
    that dominates: every rule whose origin is structurally less than the
    one named is the rule itself or does not dominate it. *)
Theorem too_specific_names_least (exprs_vec : list Expr) (rules : list Rule)
    (i : nat) (o o2 : Expr) :
  build_rules (set_insert_range exprs_vec []) [] = inr rules →
  cout (run exprs_vec) !! i = Some (TooSpecific o o2) →
  ∃ r r2, r ∈ resynthesize <$> rules ∧ r2 ∈ resynthesize <$> rules
    ∧ o = orig r ∧ o2 = orig r2 ∧ dominated_by r r2 = true
    ∧ ∀ r', r' ∈ resynthesize <$> rules → IRDeepCompare (orig r') o2 = true →
        same_as o (orig r') = true ∨ dominated_by r r' = false.
Proof.
  intros Hb Hi. destruct (run_rules _ _ Hb) as [Ho Hc].
  set (rs := resynthesize <$> rules) in *.
  rewrite Hc in Hi. apply list_elem_of_lookup_2 in Hi.
  apply elem_of_app in Hi as [Hi|Hi];
    [by apply list_elem_of_fmap in Hi as (? & [=] & _)|].
  apply list_elem_of_fmap in Hi as (r & Hcl & Hr). symmetry in Hcl.
  apply classify_TooSpecific in Hcl as (-> & r2 & Hf & ->).
  pose proof (find_dominating_Some _ _ _ Hf) as (Hr2 & Hs & Hd).
  exists r, r2. split_and!; try done.
  intros r' Hr' Hlt.
  unfold find_dominating in Hf.
  destruct (same_as (orig r) (orig r')) eqn:Hs'; [by left|right].
  destruct (dominated_by r r') eqn:Hd'; [|done].
  (* r' satisfies the test of the loop, so the loop stops at r' or before *)
  assert (StronglySorted expr_lt (orig <$> rs)) as Hsorted
    by (rewrite Ho; apply set_StronglySorted).
  clear Ho Hc Hr Hr2. exfalso.
  induction rs as [|a rs IH]; [by apply elem_of_nil in Hr'|].
  csimpl in Hsorted. apply StronglySorted_cons in Hsorted as [Ha Hrest].
  simpl in Hf.
  destruct (negb (same_as (orig r) (orig a)) && dominated_by r a) eqn:Hta.
  - injection Hf as ->.
    apply elem_of_cons in Hr' as [->|Hr']; [by apply (expr_lt_irrefl _ _ Hlt)|].
    rewrite Forall_forall in Ha.
    apply (expr_lt_asym _ _ Hlt), Ha. by apply list_elem_of_fmap_2.
  - apply elem_of_cons in Hr' as [->|Hr']; [|by apply IH].
    by rewrite Hs', Hd' in Hta.
Qed.

(** X5: two rules that dominate each other are both written off as "Too
    specific": the loop compares a rule with every rule of the list, also
    with those it writes off. *)
Theorem mutual_domination_discards_both (rules : list Rule) (r1 r2 : Rule) :
  r1 ∈ rules → r2 ∈ rules →
  reaches_domination r1 = true → reaches_domination r2 = true →
  same_as (orig r1) (orig r2) = false →
  dominated_by r1 r2 = true → dominated_by r2 r1 = true →
  (∃ o, classify rules r1 = TooSpecific (orig r1) o)
  ∧ (∃ o, classify rules r2 = TooSpecific (orig r2) o).
Proof.
  intros H1 H2 Hr1 Hr2 Hs Hd1 Hd2.
  assert (same_as (orig r2) (orig r1) = false) as Hs'.
  { unfold same_as in *. apply bool_decide_eq_false in Hs.
    apply bool_decide_eq_false. congruence. }
  rewrite !classify_reaches by done. split.
  - destruct (find_dominating rules r1) as [r|] eqn:Hf; [eauto|].
    pose proof (find_dominating_None _ _ _ Hf H2 Hs). congruence.
  - destruct (find_dominating rules r2) as [r|] eqn:Hf; [eauto|].
    pose proof (find_dominating_None _ _ _ Hf H1 Hs'). congruence.
Qed.

(** X6: a larger rule list can turn a good rule into a too specific one
    and nothing else: when every rule of [rules] is also in [rules'], a
    rule that is not good with [rules] gets the same kind of verdict with
    [rules'], the very same line unless it is "Too specific", where the
    rule named may be another. *)
Theorem more_rules_never_rescue (rules rules' : list Rule) (r : Rule) :
  (∀ x, x ∈ rules → x ∈ rules') →
  match classify rules r with
  | GoodRule _ _ _ => True
  | TooSpecific o _ => ∃ o2, classify rules' r = TooSpecific o o2
  | line => classify rules' r = line
  end.
Proof.
  intros Hsub. unfold classify.
  destruct (is_zero (predicate r)); [done|].
  destruct (implicit r); [done|].
  case_bool_decide; [done|].
  destruct (find_dominating rules r) as [r2|] eqn:Hf; [|done].
  apply find_dominating_Some in Hf as (Hin & Hs & Hd).
  destruct (find_dominating rules' r) as [r3|] eqn:Hf'; [eauto|].
  pose proof (find_dominating_None _ _ _ Hf' (Hsub _ Hin) Hs). congruence.
Qed.


End Verdict_properties.

(** *** Examples for the verdicts *)

Lemma diagnostic_is_about_least_malformed_witness :
  let exprs_vec := Sample.load Sample.malformed in
  cerr (run exprs_vec) = [ConditionFailed "call->args.size() == 3"]
  ∧ status (run exprs_vec) = Abort
  ∧ cout (run exprs_vec) = [].
Proof.
  intros exprs_vec.
  assert (cerr (run exprs_vec) !! 0%nat
          = Some (ConditionFailed "call->args.size() == 3")) as Hd
    by (vm_compute; reflexivity).
  destruct (diagnostic_is_about_least_malformed exprs_vec 0 _ Hd) as (_ & Hout & _).
  split; [vm_compute; reflexivity|]. split; [vm_compute; reflexivity|exact Hout].
Defined.

Lemma good_rule_passed_every_filter_witness :
  classify [Sample.twin_x] Sample.twin_x
  = GoodRule (Add (Var "x") (IntImm 0)) (Var "x") (IntImm 1)
  ∧ find_vars (rhs Sample.twin_x) ⊆ find_vars (lhs Sample.twin_x).
Proof.
  assert (classify [Sample.twin_x] Sample.twin_x
          = GoodRule (Add (Var "x") (IntImm 0)) (Var "x") (IntImm 1)) as Hg
    by (vm_compute; reflexivity).
  split; [exact Hg|].
  exact (proj1 (proj2 (proj2 (proj2 (proj2
    (good_rule_passed_every_filter [Sample.twin_x] Sample.twin_x _ _ _ Hg)))))).
Defined.

Lemma too_specific_names_least_witness :
  let exprs_vec := Sample.load Sample.shadowed in
  cout (run exprs_vec) !! 3%nat
  = Some (TooSpecific Sample.specific_origin Sample.general_origin)
  ∧ ∃ r r2, Sample.specific_origin = orig r ∧ Sample.general_origin = orig r2
      ∧ dominated_by r r2 = true.
Proof.
  intros exprs_vec.
  assert (build_rules (set_insert_range exprs_vec []) []
          = inr (rule_of <$> set_insert_range exprs_vec [])) as Hb
    by (vm_compute; reflexivity).
  assert (cout (run exprs_vec) !! 3%nat
          = Some (TooSpecific Sample.specific_origin Sample.general_origin)) as Hi
    by (vm_compute; reflexivity).
  split; [exact Hi|].
  destruct (too_specific_names_least exprs_vec _ 3 _ _ Hb Hi)
    as (r & r2 & _ & _ & Ho & Ho2 & Hd & _).
  exists r, r2. exact (conj Ho (conj Ho2 Hd)).
Defined.

(** [x + 0 -> x] and [y + 0 -> y] say the same; each is more general than
    the other, and the run keeps neither. *)
Lemma mutual_domination_discards_both_witness :
  let rules := [Sample.twin_x; Sample.twin_y] in
  (∃ o, classify rules Sample.twin_x = TooSpecific (orig Sample.twin_x) o)
  ∧ (∃ o, classify rules Sample.twin_y = TooSpecific (orig Sample.twin_y) o)
  ∧ cout (run (Sample.load Sample.twins)) !! 2%nat
    = Some (TooSpecific (orig Sample.twin_x) (orig Sample.twin_y))
  ∧ cout (run (Sample.load Sample.twins)) !! 3%nat
    = Some (TooSpecific (orig Sample.twin_y) (orig Sample.twin_x)).
Proof.
  intros rules.
  destruct (mutual_domination_discards_both rules Sample.twin_x Sample.twin_y)
    as [Hx Hy].
  - left.
  - right. left.
  - vm_compute. reflexivity.
  - vm_compute. reflexivity.
  - reflexivity.
  - vm_compute. reflexivity.
  - vm_compute. reflexivity.
  - split; [exact Hx|]. split; [exact Hy|]. split; vm_compute; reflexivity.
Defined.

Lemma more_rules_never_rescue_witness :
  let rules := [Sample.general_rule; Sample.specific_rule] in
  ∃ o2, classify (rules ++ [Sample.twin_x]) Sample.specific_rule
        = TooSpecific (orig Sample.specific_rule) o2.
Proof.
  intros rules.
  assert (∀ x, x ∈ rules → x ∈ rules ++ [Sample.twin_x]) as Hsub.
  { intros x Hx. apply elem_of_app. by left. }
  pose proof (more_rules_never_rescue rules (rules ++ [Sample.twin_x])
                Sample.specific_rule Hsub) as Hm.
  assert (classify rules Sample.specific_rule
          = TooSpecific (orig Sample.specific_rule) (orig Sample.general_rule)) as Hc
    by (vm_compute; reflexivity).
  rewrite Hc in Hm. exact Hm.
Defined.


(** * The tensor model *)

Module Tensor_facts.
Import interpret_nn.

Lemma to_size_t_small z : 0 ≤ z < 2 ^ 31 → to_size_t z = z.
Proof.
  intros Hz. unfold to_size_t. apply Z.mod_small.
  change (2 ^ 31) with 2147483648 in Hz.
  change (2 ^ 64) with 18446744073709551616. lia.
Qed.

Lemma to_size_t_stride s p :
  in_int s → 0 ≤ p < 2 ^ 31 → to_size_t s = p ↔ s = p.
Proof.
  intros Hs Hp. split; [|intros ->; by apply to_size_t_small].
  unfold to_size_t. int_bounds. change (2 ^ 64) with 18446744073709551616.
  intros Hm. destruct (decide (0 ≤ s)).
  - rewrite Z.mod_small in Hm; lia.
  - assert (s `mod` 18446744073709551616 = s + 18446744073709551616) as Hneg.
    { symmetry. apply (Z.mod_unique _ _ (-1)); lia. }
    lia.
Qed.

Lemma next_shape_size p e :
  0 ≤ p < 2 ^ 31 → 0 ≤ e → p * e < 2 ^ 31 →
  to_size_t (p * to_size_t e) = p * e ∧ 0 ≤ p * e < 2 ^ 31.
Proof.
  intros Hp He Hpe. split; [|lia].
  destruct (decide (p = 0)) as [->|Hp0].
  - rewrite !Z.mul_0_l. by apply to_size_t_small.
  - assert (e < 2 ^ 31) by nia.
    rewrite (to_size_t_small e) by lia. apply to_size_t_small. lia.
Qed.

Lemma wrap_int_small p : 0 ≤ p < 2 ^ 31 → wrap_int p = p.
Proof. intros Hp. apply wrap_int_id. int_bounds. lia. Qed.

(** What the loop has done when it comes through. *)
Lemma Allocate_strides_Done shape : ∀ p shape' q,
  0 ≤ p < 2 ^ 31 → small_from p shape →
  Allocate_strides shape p = Done (shape', q) →
  dense_or_unset_from p shape ∧ dense_from p shape'
  ∧ Forall2 same_box shape shape'
  ∧ q = p * elements_of shape ∧ 0 ≤ q < 2 ^ 31.
Proof.
  induction shape as [|i shape IH]; intros p shape' q Hp Hsmall; simpl.
  - intros [= <- <-]. split_and!; try done; lia.
  - destruct Hsmall as (Hs & He & Hpe & Hrest).
    destruct (next_shape_size p (extent i) Hp He Hpe) as [Hnext Hrange].
    case_bool_decide as Hstride; simpl.
    + unfold APP_CHECK. case_bool_decide as Hcheck; simpl; [|discriminate].
      apply (to_size_t_stride _ _ Hs Hp) in Hcheck. rewrite Hnext.
      destruct (Allocate_strides shape (p * extent i)) as [[s' q']|m] eqn:Hrec;
        simpl; [|discriminate].
      intros [= <- <-].
      destruct (IH _ _ _ Hrange Hrest Hrec) as (Hd & Hd' & Hbox & -> & Hq).
      split_and!; simpl; first [done | lia | by right | by constructor].
    + rewrite Hnext.
      destruct (Allocate_strides shape (p * extent i)) as [[s' q']|m] eqn:Hrec;
        simpl; [|discriminate].
      intros [= <- <-].
      destruct (IH _ _ _ Hrange Hrest Hrec) as (Hd & Hd' & Hbox & -> & Hq).
      split_and!; simpl;
        first [done | lia | by constructor
              | split; [by apply wrap_int_small | done]].
Qed.

(** The loop comes through when every stride is unset or dense. *)
Lemma Allocate_strides_accepts shape : ∀ p,
  0 ≤ p < 2 ^ 31 → small_from p shape → dense_or_unset_from p shape →
  ∃ shape', Allocate_strides shape p = Done (shape', p * elements_of shape).
Proof.
  induction shape as [|i shape IH]; intros p Hp Hsmall Hdense; simpl.
  - exists []. f_equal. f_equal. lia.
  - destruct Hsmall as (Hs & He & Hpe & Hrest). destruct Hdense as [Hi Hd].
    destruct (next_shape_size p (extent i) Hp He Hpe) as [Hnext Hrange].
    destruct (IH _ Hrange Hrest Hd) as (s' & Hrec).
    case_bool_decide as Hstride; simpl.
    + destruct Hi as [Hi|Hi]; [lia|].
      unfold APP_CHECK. rewrite bool_decide_eq_true_2
        by (by apply (to_size_t_stride _ _ Hs Hp)). simpl.
      rewrite Hnext, Hrec. simpl. eexists. f_equal. f_equal. lia.
    + rewrite Hnext, Hrec. simpl. eexists. f_equal. f_equal. lia.
Qed.

(** On a dense shape the loop changes nothing. *)
Lemma Allocate_strides_dense shape : ∀ p,
  0 ≤ p < 2 ^ 31 → small_from p shape → dense_from p shape →
  Allocate_strides shape p = Done (shape, p * elements_of shape).
Proof.
  induction shape as [|i shape IH]; intros p Hp Hsmall Hdense; simpl.
  - f_equal. f_equal. lia.
  - destruct Hsmall as (Hs & He & Hpe & Hrest). destruct Hdense as [Hi Hd].
    destruct (next_shape_size p (extent i) Hp He Hpe) as [Hnext Hrange].
    pose proof (IH _ Hrange Hrest Hd) as Hrec.
    case_bool_decide as Hstride; simpl.
    + unfold APP_CHECK. rewrite bool_decide_eq_true_2
        by (by apply (to_size_t_stride _ _ Hs Hp)). simpl.
      rewrite Hnext, Hrec. simpl. f_equal. f_equal. lia.
    + rewrite Hnext, Hrec. simpl.
      rewrite wrap_int_small by done. destruct i as [m e s f]. simpl in *.
      subst. by rewrite Z.mul_assoc.
Qed.

Lemma small_from_same_box shape : ∀ shape' p,
  Forall2 same_box shape shape' → dense_from p shape' → 0 ≤ p < 2 ^ 31 →
  small_from p shape → small_from p shape'.
Proof.
  induction shape as [|i shape IH]; intros shape' p Hbox; inversion_clear Hbox
    as [|? j ? s' (Hm & He & Hf) Hrest]; [done|].
  simpl. intros [Hj Hd] Hp (Hs & Hex & Hpe & Hsm).
  rewrite <- He in *. split_and!; try done.
  - rewrite Hj. int_bounds. lia.
  - apply IH; [done..|lia|done].
Qed.

Lemma Allocate_strides_frame shape : ∀ p shape' q,
  Allocate_strides shape p = Done (shape', q) →
  Forall2 (λ i j, same_box i j ∧ (stride i ≠ 0 → j = i)) shape shape'.
Proof.
  induction shape as [|i shape IH]; intros p shape' q; simpl.
  - intros [= <- <-]. constructor.
  - case_bool_decide as Hstride; simpl.
    + unfold APP_CHECK. case_bool_decide; simpl; [|discriminate].
      destruct (Allocate_strides shape _) as [[s' q']|m] eqn:Hrec; simpl;
        [|discriminate].
      intros [= <- <-]. constructor; [done|by eapply IH].
    + destruct (Allocate_strides shape _) as [[s' q']|m] eqn:Hrec; simpl;
        [|discriminate].
      intros [= <- <-]. constructor; [|by eapply IH]. split; [done|].
      intros Hne. by destruct Hne.
Qed.

Lemma elements_of_same_box shape shape' :
  Forall2 same_box shape shape' → elements_of shape' = elements_of shape.
Proof.
  induction 1 as [|i j s s' (_ & He & _) _ IH]; simpl; [done|].
  by rewrite IH, He.
Qed.

Lemma SizeOfTensorType_range t n : SizeOfTensorType t = Done n → 1 ≤ n ≤ 32.
Proof. destruct t; simpl; intros [= <-]; lia. Qed.

Lemma total_size_small q n :
  0 ≤ q < 2 ^ 31 → 1 ≤ n ≤ 32 → to_size_t (q * n) = q * n ∧ 0 ≤ q * n.
Proof.
  intros Hq Hn. split; [|nia]. unfold to_size_t. apply Z.mod_small.
  change (2 ^ 31) with 2147483648 in Hq.
  change (2 ^ 64) with 18446744073709551616. nia.
Qed.

(** What [Allocate] returns, step by step. *)
Lemma Allocate_Done t t' :
  Allocate t = Done t' →
  ∃ shape' q n, Allocate_strides (shape_ t) 1 = Done (shape', q)
    ∧ SizeOfTensorType (type_ t) = Done n
    ∧ Name t' = Name t ∧ type_ t' = type_ t ∧ shape_ t' = shape'
    ∧ (data_ t = [] → data_ t' = replicate (Z.to_nat (to_size_t (q * n))) 0)
    ∧ (data_ t ≠ [] → data_ t' = data_ t
                      ∧ Z.of_nat (length (data_ t)) = to_size_t (q * n)).
Proof.
  unfold Allocate.
  destruct (Allocate_strides (shape_ t) 1) as [[shape' q]|m] eqn:Hs; simpl;
    [|discriminate].
  destruct (SizeOfTensorType (type_ t)) as [n|m] eqn:Hn; simpl; [|discriminate].
  case_bool_decide as Hdata.
  - intros [= <-]. exists shape', q, n. simpl. by split_and!.
  - unfold APP_CHECK. case_bool_decide as Hlen; simpl; [|discriminate].
    intros [= <-]. exists shape', q, n. simpl. by split_and!.
Qed.

(** X8: for every tensor type that has both a size in bytes and a Halide
    type, the Halide type is a scalar whose bit width is eight times the
    size. *)
Theorem halide_type_bits_match_size (t : TensorType.t) (h : halide_type_t) (n : Z) :
  TensorTypeToHalideType t = Done h → SizeOfTensorType t = Done n →
  bits h = 8 * n ∧ lanes h = 1.
Proof. destruct t; simpl; intros [= <-] [= <-]; done. Qed.

(** X9: the names of the tensor types are pairwise different: the type can
    be read back from what [TensorTypeToString] returns. *)
Theorem TensorTypeToString_injective (t1 t2 : TensorType.t) :
  TensorTypeToString t1 = TensorTypeToString t2 → t1 = t2.
Proof. destruct t1, t2; simpl; intros Heq; try reflexivity; discriminate Heq. Qed.

(** X10: on a small shape [Allocate] comes through exactly when every
    stride is still unset or already the dense one, the type has a size,
    and the tensor has no bytes yet or exactly as many as the shape and the
    type ask for; anything else is fatal. *)
Theorem Allocate_succeeds_iff (t : Tensor) :
  small_from 1 (shape_ t) →
  (∃ t', Allocate t = Done t') ↔
  dense_or_unset_from 1 (shape_ t)
  ∧ ∃ n, SizeOfTensorType (type_ t) = Done n
      ∧ (data_ t = []
         ∨ Z.of_nat (length (data_ t)) = elements_of (shape_ t) * n).
Proof.
  intros Hsmall. assert (0 ≤ 1 < 2 ^ 31) as H1 by done. split.
  - intros (t' & (shape' & q & n & Hs & Hn & _ & _ & _ & _ & Hdata)%Allocate_Done).
    destruct (Allocate_strides_Done _ _ _ _ H1 Hsmall Hs) as (Hd & _ & _ & -> & Hq).
    split; [done|]. exists n. split; [done|].
    destruct (decide (data_ t = [])) as [|Hne]; [by left|right].
    destruct (Hdata Hne) as [_ Hlen]. rewrite Hlen, Z.mul_1_l.
    apply total_size_small; [lia|by eapply SizeOfTensorType_range].
  - intros (Hd & n & Hn & Hdata).
    destruct (Allocate_strides_accepts _ _ H1 Hsmall Hd) as (shape' & Hs).
    destruct (Allocate_strides_Done _ _ _ _ H1 Hsmall Hs) as (_ & _ & _ & _ & Hq).
    unfold Allocate. rewrite Hs. simpl. rewrite Hn. simpl.
    case_bool_decide as Hempty; [eauto|].
    destruct Hdata as [?|Hlen]; [done|].
    unfold APP_CHECK. rewrite bool_decide_eq_true_2; [simpl; eauto|].
    rewrite Hlen, Z.mul_1_l. symmetry.
    apply total_size_small; [lia|by eapply SizeOfTensorType_range].
Qed.

(** X11: after [Allocate] on a small shape the layout is dense: the first
    stride is 1 and each further stride is the product of the extents
    before it; the tensor holds one element of the type's size per point of
    the shape, and bytes that [Allocate] made itself are all zero. *)
Theorem Allocate_layout (t t' : Tensor) :
  small_from 1 (shape_ t) → Allocate t = Done t' →
  dense_from 1 (shape_ t')
  ∧ ∃ n, SizeOfTensorType (type_ t) = Done n
      ∧ Z.of_nat (length (data_ t')) = elements_of (shape_ t') * n
      ∧ (data_ t = [] → Forall (λ b, b = 0) (data_ t')).
Proof.
  intros Hsmall (shape' & q & n & Hs & Hn & _ & _ & -> & He & Hne)%Allocate_Done.
  assert (0 ≤ 1 < 2 ^ 31) as H1 by done.
  destruct (Allocate_strides_Done _ _ _ _ H1 Hsmall Hs) as (_ & Hd & Hbox & -> & Hq).
  split; [done|]. exists n. split; [done|].
  rewrite (elements_of_same_box _ _ Hbox).
  destruct (total_size_small (1 * elements_of (shape_ t)) n) as [Hsz Hpos];
    [done|by eapply SizeOfTensorType_range|].
  rewrite Z.mul_1_l in *.
  destruct (decide (data_ t = [])) as [Hempty|Hfull].
  - rewrite (He Hempty), Hsz, length_replicate, Z2Nat.id by done.
    split; [done|]. intros _. apply Forall_forall.
    by intros b [-> _]%elem_of_replicate.
  - destruct (Hne Hfull) as [-> Hlen]. by rewrite Hlen, Hsz.
Qed.

(** X12: [Allocate] is idempotent on small shapes: calling it on a tensor
    it has returned comes through again and changes nothing. *)
Theorem Allocate_idempotent (t t' : Tensor) :
  small_from 1 (shape_ t) → Allocate t = Done t' → Allocate t' = Done t'.
Proof.
  intros Hsmall Ha.
  pose proof Ha as (shape' & q & n & Hs & Hn & HN & HT & Hshape & He & Hne)%Allocate_Done.
  assert (0 ≤ 1 < 2 ^ 31) as H1 by done.
  destruct (Allocate_strides_Done _ _ _ _ H1 Hsmall Hs) as (_ & Hd & Hbox & -> & Hq).
  destruct (total_size_small (1 * elements_of (shape_ t)) n) as [Hsz Hpos];
    [done|by eapply SizeOfTensorType_range|].
  assert (small_from 1 shape') as Hsmall' by by eapply small_from_same_box.
  unfold Allocate. rewrite Hshape, (Allocate_strides_dense _ _ H1 Hsmall' Hd). simpl.
  rewrite HT, Hn. simpl. rewrite (elements_of_same_box _ _ Hbox).
  assert (Z.of_nat (length (data_ t')) = to_size_t (1 * elements_of (shape_ t) * n))
    as Hlen.
  { destruct (decide (data_ t = [])) as [Hempty|Hfull].
    - by rewrite (He Hempty), length_replicate, Z2Nat.id by lia.
    - by destruct (Hne Hfull) as [-> ->]. }
  destruct t' as [N T S D]. simpl in *. subst N T S.
  case_bool_decide as Hempty.
  - subst D. simpl in Hlen. rewrite <- Hlen. done.
  - unfold APP_CHECK. by rewrite bool_decide_eq_true_2.
Qed.

(** X13: whatever the shape, [Allocate] leaves the name, the type, and the
    origin, extent and flags of every dimension as they were; it keeps a
    stride that was set and bytes that were there. *)
Theorem Allocate_frame (t t' : Tensor) :
  Allocate t = Done t' →
  Name t' = Name t ∧ type_ t' = type_ t
  ∧ Forall2 (λ i j, same_box i j ∧ (stride i ≠ 0 → j = i)) (shape_ t) (shape_ t')
  ∧ (data_ t ≠ [] → data_ t' = data_ t).
Proof.
  intros (shape' & q & n & Hs & _ & HN & HT & -> & _ & Hne)%Allocate_Done.
  split_and!; try done.
  - by eapply Allocate_strides_frame.
  - intros Hfull. by destruct (Hne Hfull).
Qed.

(** X14: a tensor of strings or of booleans cannot be allocated: the type
    has no size, and the run stops, whatever the shape and the bytes. *)
Theorem Allocate_without_size_is_fatal (t : Tensor) :
  type_ t = TensorType.String ∨ type_ t = TensorType.Bool →
  ∃ message, Allocate t = Fatal message.
Proof.
  intros Ht. unfold Allocate.
  destruct (Allocate_strides (shape_ t) 1) as [[shape' q]|m]; simpl; [|eauto].
  destruct Ht as [-> | ->]; simpl; eauto.
Qed.

(** *** Examples *)

Lemma halide_type_bits_match_size_witness :
  TensorTypeToHalideType TensorType.Float16 = Done (halide_type halide_type_float 16)
  ∧ SizeOfTensorType TensorType.Float16 = Done 2
  ∧ bits (halide_type halide_type_float 16) = 8 * 2.
Proof.
  split; [reflexivity|]. split; [reflexivity|].
  exact (proj1 (halide_type_bits_match_size TensorType.Float16 _ 2 eq_refl eq_refl)).
Defined.

Lemma TensorTypeToString_injective_witness :
  TensorTypeToString TensorType.Int8 = TensorTypeToString TensorType.Int8
  ∧ TensorType.Int8 = TensorType.Int8.
Proof.
  split; [reflexivity|].
  exact (TensorTypeToString_injective TensorType.Int8 TensorType.Int8 eq_refl).
Defined.

Lemma unallocated_image_small : small_from 1 (shape_ unallocated_image).
Proof. simpl. unfold in_int, INT_MAX. simpl. lia. Qed.

Lemma Allocate_succeeds_iff_witness :
  small_from 1 (shape_ unallocated_image)
  ∧ ∃ t', Allocate unallocated_image = Done t'.
Proof.
  split; [exact unallocated_image_small|].
  apply (Allocate_succeeds_iff unallocated_image unallocated_image_small).
  split; [simpl; auto|]. exists 1. split; [reflexivity|by left].
Defined.

Lemma Allocate_layout_witness :
  let t' := mkTensor "image" TensorType.UInt8
              [mk_halide_dimension_t 0 3 1 0; mk_halide_dimension_t 0 4 3 0]
              (replicate 12 0) in
  Allocate unallocated_image = Done t' ∧ dense_from 1 (shape_ t').
Proof.
  intros t'.
  assert (Allocate unallocated_image = Done t') as Ha by (vm_compute; reflexivity).
  split; [exact Ha|].
  exact (proj1 (Allocate_layout unallocated_image t' unallocated_image_small Ha)).
Defined.

Lemma Allocate_idempotent_witness :
  let t' := mkTensor "image" TensorType.UInt8
              [mk_halide_dimension_t 0 3 1 0; mk_halide_dimension_t 0 4 3 0]
              (replicate 12 0) in
  Allocate unallocated_image = Done t' ∧ Allocate t' = Done t'.
Proof.
  intros t'.
  assert (Allocate unallocated_image = Done t') as Ha by (vm_compute; reflexivity).
  split; [exact Ha|].
  exact (Allocate_idempotent unallocated_image t' unallocated_image_small Ha).
Defined.

Lemma Allocate_frame_witness :
  let t' := mkTensor "image" TensorType.UInt8
              [mk_halide_dimension_t 0 3 1 0; mk_halide_dimension_t 0 4 3 0]
              (replicate 12 0) in
  Allocate unallocated_image = Done t'
  ∧ Name t' = Name unallocated_image ∧ type_ t' = type_ unallocated_image.
Proof.
  intros t'.
  assert (Allocate unallocated_image = Done t') as Ha by (vm_compute; reflexivity).
  split; [exact Ha|].
  destruct (Allocate_frame unallocated_image t' Ha) as (HN & HT & _).
  exact (conj HN HT).
Defined.

Lemma Allocate_without_size_is_fatal_witness :
  type_ flag = TensorType.Bool ∧ ∃ message, Allocate flag = Fatal message.
Proof.
  split; [reflexivity|].
  exact (Allocate_without_size_is_fatal flag (or_intror eq_refl)).
Defined.

End Tensor_facts.


(** * The table of rules for [!=] *)

(** ** Leaves under substitution *)

Lemma total_weight_app u l1 l2 :
  total_weight u (l1 ++ l2) = total_weight u l1 + total_weight u l2.
Proof. induction l1 as [|v l1 IH]; simpl; lia. Qed.

Lemma total_weight_submseteq u l1 l2 :
  (∀ v, 0 ≤ u v) → l1 ⊆+ l2 → total_weight u l1 ≤ total_weight u l2.
Proof.
  intros Hu. induction 1 as [|v l1 l2 _ IH|v1 v2 l|v l1 l2 _ IH|l1 l2 l3 _ IH1 _ IH2];
    simpl; try lia.
  pose proof (Hu v). lia.
Qed.

Lemma total_weight_length u l :
  total_weight u l = Z.of_nat (length l) + total_weight (λ v, u v - 1) l.
Proof. induction l as [|v l IH]; simpl; lia. Qed.

Lemma leaf_count_substitute binding e :
  leaf_count (substitute binding e)
  = const_count e + total_weight (weight binding) (var_occurrences e).
Proof.
  induction e as [v|n|op a b IHa IHb|a IHa|c t f IHc IHt IHf|n args IH]
    using IRNode_ind'; simpl; rewrite ?total_weight_app; try lia.
  - unfold weight. destruct (binding !! n); simpl; lia.
  - induction IH as [|a l Ha _ IHl]; simpl; [done|].
    rewrite total_weight_app. lia.
Qed.

Lemma leaf_count_occurrences e :
  leaf_count e = const_count e + Z.of_nat (length (var_occurrences e)).
Proof.
  induction e as [v|n|op a b IHa IHb|a IHa|c t f IHc IHt IHf|n args IH]
    using IRNode_ind'; simpl; rewrite ?length_app; try lia.
  induction IH as [|a l Ha _ IHl]; simpl; [done|].
  rewrite length_app. lia.
Qed.

(** A rule that has fewer leaves on the right than on the left, and no
    variable more often, has fewer leaves on the right in every instance. *)
Lemma substitute_keeps_shrinking binding l r :
  leafy binding →
  var_occurrences r ⊆+ var_occurrences l → leaf_count r < leaf_count l →
  leaf_count (substitute binding r) < leaf_count (substitute binding l).
Proof.
  intros Hleafy Hocc Hlt.
  rewrite !leaf_count_substitute, !(total_weight_length (weight binding)).
  rewrite !leaf_count_occurrences in Hlt.
  assert (total_weight (λ v, weight binding v - 1) (var_occurrences r)
          ≤ total_weight (λ v, weight binding v - 1) (var_occurrences l)) as Hw.
  { apply total_weight_submseteq; [|done].
    intros v. unfold weight. destruct (binding !! v) as [t|] eqn:Hv; [|lia].
    pose proof (Hleafy v t Hv). lia. }
  lia.
Qed.

Global Instance IRNode_eq_dec : EqDecision IRNode.
Proof.
  intros e1 e2. destruct (compare_expr e1 e2) eqn:Hc.
  - left. by apply compare_expr_eq.
  - right. intros ->. by rewrite compare_expr_refl in Hc.
  - right. intros ->. by rewrite compare_expr_refl in Hc.
Defined.

(** ** The rules of the table *)

(** X15: no rule of the table is implicit: the replacement uses only
    variables of the pattern, and so does the predicate where there is
    one; the filter never reports a rule of the table as "Implicit
    rule". *)
Theorem table_rules_are_explicit `{Collaborators} :
  Forall (λ g,
    find_vars (Simplify_NE.after g) ⊆ find_vars (Simplify_NE.before g)
    ∧ (∀ p, Simplify_NE.condition g = Some p →
         find_vars p ⊆ find_vars (Simplify_NE.before g))
    ∧ ∀ rules, classify rules (Simplify_NE.as_rule g)
               ≠ ImplicitRule (orig (Simplify_NE.as_rule g)))
    Simplify_NE.rules.
Proof.
  assert (forallb Simplify_NE.explicit Simplify_NE.rules = true) as Hall
    by (vm_compute; reflexivity).
  rewrite forallb_forall in Hall. apply Forall_forall. intros g Hg%list_elem_of_In.
  specialize (Hall g Hg). unfold Simplify_NE.explicit in Hall.
  apply andb_true_iff in Hall as [Hi%negb_true_iff Hp].
  split_and!.
  - intros v. by apply (implicit_false (Simplify_NE.as_rule g)).
  - intros p Hc. rewrite Hc in Hp. by apply bool_decide_eq_true in Hp.
  - intros rules. unfold classify. rewrite Hi.
    destruct (is_zero _); [discriminate|].
    destruct (bool_decide _); [discriminate|].
    destruct (find_dominating _ _); discriminate.
Qed.

(** X16: every rule of the table is filed where it can fire: its pattern is
    a [!=] node whose operands have the node kinds that the tests in front
    of the rule ask for; and no pattern is in the table twice. *)
Theorem table_rules_pass_their_guards :
  Forall (λ g,
    (∃ l r, Simplify_NE.before g = Bin OpNE l r)
    ∧ Forall (λ test, ∃ e,
        Simplify_NE.operand test.1 (Simplify_NE.before g) = Some e
        ∧ node_type e = IRNodeType.rank test.2) (Simplify_NE.guards g))
    Simplify_NE.rules
  ∧ NoDup (Simplify_NE.before <$> Simplify_NE.rules).
Proof.
  split.
  - assert (forallb Simplify_NE.filed_right Simplify_NE.rules = true) as Hall
      by (vm_compute; reflexivity).
    rewrite forallb_forall in Hall. apply Forall_forall. intros g Hg%list_elem_of_In.
    specialize (Hall g Hg). unfold Simplify_NE.filed_right in Hall.
    apply andb_true_iff in Hall as [Hne Hguards]. split.
    + destruct (Simplify_NE.before g) as [| |[] l r| | |]; try discriminate. eauto.
    + rewrite forallb_forall in Hguards. apply Forall_forall.
      intros test Ht%list_elem_of_In. specialize (Hguards test Ht).
      unfold Simplify_NE.guard_holds in Hguards.
      destruct (Simplify_NE.operand _ _) as [e|]; [|discriminate].
      exists e. split; [done|]. by apply Nat.eqb_eq.
  - apply (bool_decide_unpack _). vm_compute. exact I.
Qed.

(** X17: every rule of the table makes the tree smaller, in every instance:
    whatever terms with at least one leaf each a binding puts for the
    wildcards, the replacement has strictly fewer leaves than the
    pattern. *)
Theorem table_rules_shrink_every_instance (binding : gmap string IRNode) :
  leafy binding →
  Forall (λ g,
    leaf_count (substitute binding (Simplify_NE.after g))
    < leaf_count (substitute binding (Simplify_NE.before g)))
    Simplify_NE.rules.
Proof.
  intros Hleafy.
  assert (forallb Simplify_NE.shrinks Simplify_NE.rules = true) as Hall
    by (vm_compute; reflexivity).
  rewrite forallb_forall in Hall. apply Forall_forall. intros g Hg%list_elem_of_In.
  specialize (Hall g Hg). unfold Simplify_NE.shrinks in Hall.
  apply andb_true_iff in Hall as [Hlt%bool_decide_eq_true Hocc%bool_decide_eq_true].
  by apply substitute_keeps_shrinking.
Qed.

Lemma table_rules_shrink_every_instance_witness :
  let binding : gmap string IRNode :=
    {[ "x" := Add (Var "p") (Var "q"); "y" := IntImm 7 ]} in
  leafy binding
  ∧ leaf_count (substitute binding
      (Bin OpNE (Var "z") (Var "y")))
    < leaf_count (substitute binding
        (Bin OpNE (Var "x") (Add (Var "z") (Sub (Var "x") (Var "y"))))).
Proof.
  intros binding.
  assert (leafy binding) as Hleafy.
  { intros v t. unfold binding. rewrite lookup_insert_Some, lookup_singleton_Some.
    intros [[_ <-]|[_ [_ <-]]]; simpl; lia. }
  split; [exact Hleafy|].
  pose proof (table_rules_shrink_every_instance binding Hleafy) as Hall.
  rewrite Forall_forall in Hall.
  apply (Hall (Simplify_NE.mkGuarded [(Simplify_NE.b_, IRNodeType.Add)]
                 (Bin OpNE (Var "x") (Add (Var "z") (Sub (Var "x") (Var "y"))))
                 (Bin OpNE (Var "z") (Var "y")) None)).
  apply list_elem_of_lookup. exists 2%nat. vm_compute. reflexivity.
Defined.

(** * Conversions of the delegate *)

Lemma ConvertTfLiteShape_loop (dims : list Z) (n : nat) :
  (n ≤ length dims)%nat →
  foldl (λ shape i, shape ++ [dims !!! (length dims - 1 - i)%nat]) [] (seq 0 n)
  = reverse (drop (length dims - n) dims).
Proof.
  induction n as [|n IH]; intros Hn.
  - by rewrite Nat.sub_0_r, drop_all.
  - rewrite seq_S, foldl_app, IH by lia. simpl.
    destruct (lookup_lt_is_Some_2 dims (length dims - S n)) as [d Hd]; [lia|].
    rewrite (drop_S _ _ _ Hd), reverse_cons.
    replace (S (length dims - S n)) with (length dims - n)%nat by lia.
    do 2 f_equal. replace (length dims - 1 - n)%nat with (length dims - S n)%nat by lia.
    by apply list_lookup_total_correct.
Qed.

(** X18: the delegate hands the dimensions over in reverse order, and the
    axis it passes to the concatenation points to the same dimension as
    the axis of the node did: for an axis between [-rank] and [rank - 1]
    (negative ones count from the end) the flipped axis is a valid index,
    and the shape has there what the dimensions have at the node's
    axis. *)
Theorem concatenation_axis_follows_the_shape (dims : list Z) (axis : Z) :
  let rank := Z.of_nat (length dims) in
  rank ≤ INT_MAX → - rank ≤ axis < rank →
  hannk.ConvertTfLiteShape dims = reverse dims
  ∧ 0 ≤ hannk.BuildConcatenation_axis rank axis < rank
  ∧ hannk.ConvertTfLiteShape dims !! Z.to_nat (hannk.BuildConcatenation_axis rank axis)
    = dims !! Z.to_nat (axis `mod` rank).
Proof.
  intros rank Hrank Haxis.
  assert (hannk.ConvertTfLiteShape dims = reverse dims) as Hshape.
  { unfold hannk.ConvertTfLiteShape.
    by rewrite ConvertTfLiteShape_loop, Nat.sub_diag by done. }
  assert (hannk.BuildConcatenation_axis rank axis = rank - 1 - axis `mod` rank
          ∧ 0 ≤ axis `mod` rank < rank) as [Hflip Hmod].
  { pose proof (Z.mod_pos_bound axis rank ltac:(lia)) as Hm.
    split; [|done]. unfold hannk.BuildConcatenation_axis. case_bool_decide as Hneg.
    - rewrite (wrap_int_id (rank + axis)) by (int_bounds; lia).
      rewrite wrap_int_id by (int_bounds; lia).
      assert (axis `mod` rank = rank + axis) as ->; [|lia].
      symmetry. apply (Z.mod_unique _ _ (-1)); lia.
    - rewrite wrap_int_id by (int_bounds; lia).
      rewrite Z.mod_small by lia. lia. }
  split; [done|]. split; [lia|].
  rewrite Hshape, Hflip, reverse_lookup by lia.
  f_equal. lia.
Qed.

(** X19: an activation that the support check lets through is one the
    converter knows: [ConvertTfLiteActivation] returns for it, with the
    activation function of the same name; the check never lets [Tanh],
    [SignBit] or [Sigmoid] through. *)
Theorem accepted_activation_converts (activation : hannk.TfLiteFusedActivation) :
  hannk.IsActivationReluOrNone activation = true →
  ∃ f, hannk.ConvertTfLiteActivation activation = interpret_nn.Done f
    ∧ f ≠ hannk.ActivationFunction.Tanh ∧ f ≠ hannk.ActivationFunction.SignBit.
Proof.
  destruct activation; simpl; intros Hok; try discriminate Hok;
    eexists; (split; [reflexivity|]); split; discriminate.
Qed.

Lemma concatenation_axis_follows_the_shape_witness :
  hannk.BuildConcatenation_axis 4 (-1) = 0
  ∧ hannk.ConvertTfLiteShape [1; 224; 224; 3] !! 0%nat = Some 3.
Proof.
  assert (Z.of_nat (length [1; 224; 224; 3]) ≤ INT_MAX) as Hrank by (by vm_compute).
  assert (- Z.of_nat (length [1; 224; 224; 3]) ≤ -1
          < Z.of_nat (length [1; 224; 224; 3])) as Haxis by (simpl; lia).
  destruct (concatenation_axis_follows_the_shape [1; 224; 224; 3] (-1) Hrank Haxis)
    as (_ & _ & Hat).
  split; [reflexivity|exact Hat].
Defined.

Lemma accepted_activation_converts_witness :
  hannk.IsActivationReluOrNone hannk.kTfLiteActRelu6 = true
  ∧ ∃ f, hannk.ConvertTfLiteActivation hannk.kTfLiteActRelu6 = interpret_nn.Done f
      ∧ f ≠ hannk.ActivationFunction.Tanh ∧ f ≠ hannk.ActivationFunction.SignBit.
Proof.
  split; [reflexivity|].
  exact (accepted_activation_converts hannk.kTfLiteActRelu6 eq_refl).
Defined.
